(** * swl-argparse: a shallow embedding of [src/index.ts]

    The TypeScript module builds command-line parsers out of handlers.
    A handler is an object with two closures, [scan] and [value]; a
    parser is an ordered array of handlers together with a scanning
    loop ([doScan]), an extraction pass ([doValues]) and an entry point
    ([parse]) that first normalises the tokens ([expand_flags]).

    Conventions of the embedding
    - JavaScript strings are [string]s, one character per code unit;
      [s[i]] is [String.get i s], which is [None] where JavaScript
      yields [undefined].
    - Arrays are lists; [a[i]] is the list lookup [a !! i].
    - Positions and lengths are [nat]s; the one subtraction that can
      go below zero ([args.length - 1] in [arg]) is computed in [Z].
    - The [Map] from handler objects to accumulators is a [gmap] keyed
      by the identity of the handler object (a [nat]).
    - Object results are [gmap string jsval]: the own properties of
      the object.  The property order and the prototype of an object
      are not represented.  [res[key] = r] is [set_property]: under
      the name [__proto__] it creates no own property.
    - A [MatchError] is the constructor [MatchErr], [ScanErr] or
      [ScanFail] carrying its message; a JavaScript [throw] is the
      constructor [Throw] (inside [parse], [Thrown]).
    - Help texts, the prelude and the epilogue are carried along but
      never read: [show_help] only prints. *)

From Stdlib Require Import ZArith Ascii String.
From stdpp Require Import gmap strings list fin_maps.

#[local] Set Warnings "-register-all".
#[local] Open Scope string_scope.
#[local] Open Scope list_scope.
#[local] Open Scope nat_scope.

(** ** JavaScript string primitives used by the module *)

Module Js.

(** [s.slice(n)] *)
Fixpoint str_slice_from (n : nat) (s : string) : string :=
  match n, s with
  | 0, _ => s
  | S n', String _ s' => str_slice_from n' s'
  | S _, EmptyString => EmptyString
  end.

(** [s.slice(0, n)] *)
Fixpoint str_slice_to (n : nat) (s : string) : string :=
  match n, s with
  | S n', String c s' => String c (str_slice_to n' s')
  | _, _ => EmptyString
  end.

(** [s.includes(c)] for a one-character needle *)
Fixpoint str_includes (c : ascii) (s : string) : bool :=
  match s with
  | EmptyString => false
  | String d s' => if Ascii.eqb d c then true else str_includes c s'
  end.

(** [s.search(c)] for a one-character pattern without special
    meaning: the index of the first occurrence, or [-1]. *)
Fixpoint str_search (c : ascii) (s : string) : Z :=
  match s with
  | EmptyString => (-1)%Z
  | String d s' =>
      if Ascii.eqb d c then 0%Z
      else let r := str_search c s' in
           if (r <? 0)%Z then (-1)%Z else (r + 1)%Z
  end.

(** [s[i] === c] *)
Definition char_is (s : string) (i : nat) (c : ascii) : bool :=
  match String.get i s with
  | Some d => Ascii.eqb d c
  | None => false
  end.

(** [a.join(sep)] *)
Fixpoint join (sep : string) (l : list string) : string :=
  match l with
  | [] => EmptyString
  | [x] => x
  | x :: rest => x +:+ sep +:+ join sep rest
  end.

(** [a.slice(from, to)] on an array, for non-negative bounds *)
Definition slice {A} (l : list A) (from to : nat) : list A :=
  take (to - from) (drop from l).

(** The double-quote character, as a one-character string. *)
Definition dq : string := String (ascii_of_nat 34) EmptyString.

End Js.

(** ** The token normaliser, [expand_flags] (index.ts 243-264) *)

(** The inner [for (let i = 1, l = arg.length; i < l; i++)] loop.
    [n] counts the iterations that remain, [l - i]. *)
Fixpoint expand_short (n : nat) (arg : string) (i : nat) (res : list string)
  : list string :=
  match n with
  | 0 => res
  | S n' =>
      match String.get i arg with
      | Some c =>
          if Ascii.eqb c "=" then res ++ [Js.str_slice_from (i + 1) arg]
          else expand_short n' arg (i + 1) (res ++ [String "-" (String c EmptyString)])
      | None => res
      end
  end.

(** One iteration of [for (let arg of argv)]; [res] is the output
    array so far. *)
Definition expand_arg (res : list string) (arg : string) : list string :=
  if Js.char_is arg 0 "-" && negb (Js.char_is arg 1 "-") then
    expand_short (String.length arg - 1) arg 1 res
  else if Js.char_is arg 0 "-" && Js.char_is arg 1 "-" && Js.str_includes "=" arg then
    let first := Z.to_nat (Js.str_search "=" arg) in
    (res ++ [Js.str_slice_to first arg]) ++ [Js.str_slice_from (first + 1) arg]
  else res ++ [arg].

Definition expand_flags (argv : list string) : list string :=
  fold_left expand_arg argv [].

(** *** The normaliser as the specification words it *)

Module NormalizerSpec.

(** The characters after the dash of a short token, one ["-c"] token
    per character; at an ["="] the rest is one value token. *)
Fixpoint split_short (after_dash : string) : list string :=
  match after_dash with
  | EmptyString => []
  | String c rest =>
      if Ascii.eqb c "=" then [rest]
      else String "-" (String c EmptyString) :: split_short rest
  end.

(** The part of [s] before its first ["="] and the part after it. *)
Fixpoint split_at_eq (s : string) : option (string * string) :=
  match s with
  | EmptyString => None
  | String c rest =>
      if Ascii.eqb c "=" then Some (EmptyString, rest)
      else match split_at_eq rest with
           | Some (name, val) => Some (String c name, val)
           | None => None
           end
  end.

(** [tok] begins with [p]. *)
Fixpoint starts_with (p tok : string) : bool :=
  match p, tok with
  | EmptyString, _ => true
  | String a p', String b tok' => Ascii.eqb b a && starts_with p' tok'
  | String _ _, EmptyString => false
  end.

(** A token beginning with ["--"] that contains an ["="] is split at
    the first ["="]; a token beginning with a single ["-"] is split
    into its characters; any other token passes through. *)
Definition normalize_token (tok : string) : list string :=
  if starts_with "--" tok then
    match split_at_eq tok with
    | Some (name, val) => [name; val]
    | None => [tok]
    end
  else if starts_with "-" tok then split_short (Js.str_slice_from 1 tok)
  else [tok].

Definition normalize (argv : list string) : list string :=
  flat_map normalize_token argv.

End NormalizerSpec.

(** ** Data model *)

(** The values an extraction can yield: [undefined], [null], booleans,
    strings, arrays ([repeat]) and objects ([doValues]). *)
Inductive jsval :=
| VUndef
| VNull
| VBool (b : bool)
| VStr (s : string)
| VArr (items : list jsval)
| VObj (fields : gmap string jsval).

(** [v == null] *)
Definition nullish (v : jsval) : bool :=
  match v with
  | VUndef | VNull => true
  | _ => false
  end.

(** What a [value] closure produces: a value, a [MatchError], or an
    exception ([throw new Error(message)]). *)
Inductive VRes :=
| Val (v : jsval)
| MatchErr (message : string)
| Throw (message : string).

(** A claimed group: the array of tokens one [scan] call returned.

    [oneof] keeps a [WeakMap] from the array it returns (by identity)
    to [{mapres, opt}].  Every such array is freshly allocated by
    [args.slice] and registered before it is returned, and arrays are
    never mutated afterwards, so looking the array up in a [WeakMap]
    reads back what was registered for it.  The embedding stores the
    registration with the array: [origin] is [Some (wm, i, mapres)]
    for an array registered in the side table [wm] with the [i]-th
    alternative and its accumulator map, and [None] for an array no
    side table knows. *)
Inductive group :=
| Group (toks : list string) (origin : option (nat * nat * gmap nat (list group))).

Definition toks (g : group) : list string :=
  match g with Group t _ => t end.

Definition origin (g : group) : option (nat * nat * gmap nat (list group)) :=
  match g with Group _ o => o end.

(** An array that no [WeakMap] knows. *)
Definition plain (t : list string) : group := Group t None.

(** What a [scan] closure returns: [string[] | undefined | MatchError]. *)
Inductive ScanRes :=
| Claim (res : group)
| NoClaim
| ScanErr (message : string).

Record Opts := {
  key : string;
  opt_help : option string;
  opt_group : option string;
  activators : option (list string)
}.

(** [class Handler].  [hid] is the identity of the object: the [Map]
    of [doScan] is keyed by it.  A [scan] closure answers [None] when
    the call does not return (see [scanargs]). *)
Record Handler := {
  hid : nat;
  scan : list string -> nat -> list group -> option ScanRes;
  value : list group -> VRes;
  opts : Opts
}.

Record CliParser := {
  handlers : list Handler;
  _prelude : string;
  _epilogue : string
}.

(** What [doScan] returns: [{pos, mapres}] or a [MatchError]. *)
Inductive ScanOutcome :=
| ScanOk (pos : nat) (mapres : gmap nat (list group))
| ScanFail (message : string).

(** ** The parser: [doScan], [doValues] (index.ts 306-342) *)

(** [mapres.get(h)!] and [mapres.get(h) ?? []].  In [doScan] every
    handler of the parser has an entry, so the default is never used
    there. *)
Definition acc_of (mapres : gmap nat (list group)) (h : Handler) : list group :=
  default [] (mapres !! hid h).

(** [for (let h of this.handlers) mapres.set(h, [])] *)
Definition init_mapres (hs : list Handler) : gmap nat (list group) :=
  fold_left (fun m h => <[hid h := []]> m) hs ∅.

(** One run of the inner [for (let h of this.handlers)] of [doScan]. *)
Inductive PassRes :=
| PassClaim (h : Handler) (res : group)
| PassErr (message : string)
| PassNone.

Fixpoint pass (hs : list Handler) (args : list string) (pos : nat)
  (mapres : gmap nat (list group)) : option PassRes :=
  match hs with
  | [] => Some PassNone
  | h :: rest =>
      match scan h args pos (acc_of mapres h) with
      | None => None
      | Some (ScanErr e) => Some (PassErr e)
      | Some NoClaim => pass rest args pos mapres
      | Some (Claim res) => Some (PassClaim h res)
      end
  end.

(** [pos += res.length; acc.push(res)] *)
Definition claim (h : Handler) (res : group) (pos : nat)
  (mapres : gmap nat (list group)) : nat * gmap nat (list group) :=
  (pos + length (toks res), <[hid h := acc_of mapres h ++ [res]]> mapres).

(** How the labelled loop [scanargs] is left: by its condition or its
    [break], or by [return res] on a handler's [MatchError]. *)
Inductive LoopRes :=
| Ended (pos : nat) (mapres : gmap nat (list group))
| Aborted (message : string).

(** [scanargs: while (pos < l) { ... }].  The JavaScript loop has no
    bound; [fuel] bounds the number of iterations and [None] says that
    the bound was reached (or that a handler's scan did not return).
    [doScan] gives [length args - pos] iterations, which is enough as
    soon as no claimed group is empty: see [doScan_returns]. *)
Fixpoint scanargs (fuel : nat) (hs : list Handler) (args : list string)
  (pos : nat) (mapres : gmap nat (list group)) : option LoopRes :=
  if pos <? length args then
    match fuel with
    | 0 => None
    | S fuel' =>
        match pass hs args pos mapres with
        | None => None
        | Some (PassErr e) => Some (Aborted e)
        | Some PassNone => Some (Ended pos mapres)
        | Some (PassClaim h res) =>
            let '(pos', mapres') := claim h res pos mapres in
            scanargs fuel' hs args pos' mapres'
        end
    end
  else Some (Ended pos mapres).

Definition nothing_was_consumed : string := "nothing was consumed".

Definition doScan (p : CliParser) (args : list string) (pos : nat)
  : option ScanOutcome :=
  let init := pos in
  match scanargs (length args - pos) (handlers p) args pos (init_mapres (handlers p)) with
  | None => None
  | Some (Aborted e) => Some (ScanFail e)
  | Some (Ended pos mapres) =>
      if (pos =? init) && (pos <? length args)
      then Some (ScanFail nothing_was_consumed)
      else Some (ScanOk pos mapres)
  end.

(** [res[key] = r] on the object [res] that [doValues] creates with
    [{}].  The name ["__proto__"] is the accessor that [res] inherits
    from [Object.prototype]: assigning to it runs the setter, which
    creates no own property (it replaces the prototype when [r] is an
    object or [null] and does nothing for any other [r]).  Every other
    name becomes an own property. *)
Definition set_property (key : string) (r : jsval) (res : gmap string jsval)
  : gmap string jsval :=
  if String.eqb key "__proto__" then res else <[key := r]> res.

(** The loop of [doValues]; [res] is the object under construction. *)
Fixpoint doValues_loop (hs : list Handler) (mapres : gmap nat (list group))
  (res : gmap string jsval) : VRes :=
  match hs with
  | [] => Val (VObj res)
  | h :: rest =>
      match value h (acc_of mapres h) with
      | MatchErr e => MatchErr e
      | Throw e => Throw e
      | Val r => doValues_loop rest mapres (set_property (key (opts h)) r res)
      end
  end.

Definition doValues (p : CliParser) (mapres : gmap nat (list group)) : VRes :=
  doValues_loop (handlers p) mapres ∅.

(** ** [class Handler]: the combinators (index.ts 63-124) *)

(** [`"${xs}"`]: an array inside a template string is joined by [","]. *)
Definition quoted (s : string) : string := Js.dq +:+ s +:+ Js.dq.

Module H.

(** [derive(value?, scan?)]: a new object, [oid], that shares [opts]. *)
Definition derive (oid : nat) (value' : option (list group -> VRes))
  (scan' : option (list string -> nat -> list group -> option ScanRes))
  (this : Handler) : Handler :=
  {| hid := oid;
     scan := default (scan this) scan';
     value := default (value this) value';
     opts := opts this |}.

(** [this.opts.activators ?? this.opts.key], inside a template string *)
Definition name_of (o : Opts) : string :=
  match activators o with
  | Some acts => Js.join "," acts
  | None => key o
  end.

Definition required (oid : nat) (this : Handler) : Handler :=
  derive oid
    (Some (fun strs =>
       match value this strs with
       | MatchErr e => MatchErr e
       | Throw e => Throw e
       | Val res =>
           if nullish res
           then MatchErr (quoted (name_of (opts this)) +:+ " must be specified")
           else Val res
       end))
    None this.

Definition map (oid : nat) (fn : jsval -> VRes) (this : Handler) : Handler :=
  derive oid
    (Some (fun strs =>
       match value this strs with
       | Throw e => Throw e
       | Val res => if nullish res then Val VUndef else fn res
       | MatchErr e => MatchErr e
       end))
    None this.

Definition default (oid : nat) (v : jsval) (this : Handler) : Handler :=
  derive oid
    (Some (fun strs =>
       match value this strs with
       | Throw e => Throw e
       | Val res => if nullish res then Val v else Val res
       | MatchErr e => MatchErr e
       end))
    None this.

(** The [for (let s of strs)] loop of [repeat]'s value closure. *)
Fixpoint repeat_loop (this : Handler) (strs : list group) (res : list jsval) : VRes :=
  match strs with
  | [] => Val (VArr res)
  | s :: rest =>
      match value this [s] with
      | Throw e => Throw e
      | MatchErr e => MatchErr e
      | Val sres =>
          if nullish sres then repeat_loop this rest res
          else repeat_loop this rest (res ++ [sres])
      end
  end.

Definition repeat (oid : nat) (this : Handler) : Handler :=
  derive oid
    (Some (fun strs => repeat_loop this strs []))
    (Some (fun args pos _ => scan this args pos []))
    this.

(** [help] and [group] assign a field of the shared [opts] object and
    return [this]; neither field is read by scanning or extraction. *)
Definition help (text : string) (this : Handler) : Handler :=
  {| hid := hid this; scan := scan this; value := value this;
     opts := {| key := key (opts this); opt_help := Some text;
                opt_group := opt_group (opts this);
                activators := activators (opts this) |} |}.

Definition group (label : string) (this : Handler) : Handler :=
  {| hid := hid this; scan := scan this; value := value this;
     opts := {| key := key (opts this); opt_help := opt_help (opts this);
                opt_group := Some label;
                activators := activators (opts this) |} |}.

End H.

(** ** The primitive handlers (index.ts 127-234) *)

(** [activators.includes(x)], where [x] may be [undefined] *)
Definition includes (activators : list string) (x : option string) : bool :=
  match x with
  | Some s => existsb (String.eqb s) activators
  | None => false
  end.

(** [if (activators.length === 0) activators = ["--" + key]], for a
    builder whose [as] is called once *)
Definition effective (activators : list string) (key : string) : list string :=
  if length activators =? 0 then ["--" +:+ key] else activators.

Definition only_once (activators : list string) : string :=
  quoted (Js.join "," activators) +:+ " can only appear once".

Definition flag (oid : nat) (activators : list string) (key : string) : Handler :=
  let activators := effective activators key in
  {| hid := oid;
     scan := fun args pos _ =>
       let arg := args !! pos in
       if includes activators arg
       then match arg with
            | Some a => Some (Claim (plain [a]))
            | None => Some NoClaim
            end
       else Some NoClaim;
     value := fun id =>
       if 1 <? length id then MatchErr (only_once activators)
       else Val (VBool (negb (length id =? 0)));
     opts := {| key := key; opt_help := None; opt_group := None;
                activators := Some activators |} |}.

(** [next == undefined || next[0] === "-"] *)
Definition not_a_value (next : option string) : bool :=
  match next with
  | None => true
  | Some s => Js.char_is s 0 "-"
  end.

Definition param (oid : nat) (activators : list string) (key : string) : Handler :=
  let activators := effective activators key in
  {| hid := oid;
     scan := fun args pos _ =>
       let arg := args !! pos in
       let next := args !! (pos + 1) in
       if includes activators arg
       then Some (Claim (plain
              (Js.slice args pos (if not_a_value next then pos + 1 else pos + 2))))
       else Some NoClaim;
     value := fun args =>
       if 1 <? length args then MatchErr (only_once activators)
       else match args with
            | [] => Val VUndef
            | g :: _ => match toks g !! 1 with
                        | Some v => Val (VStr v)
                        | None => Val VUndef
                        end
            end;
     opts := {| key := key; opt_help := None; opt_group := None;
                activators := Some activators |} |}.

(** [arg(key)].  The guard [pos > args.length - 1] is computed in [Z]:
    for an empty [args] its right-hand side is [-1].  Behind the guard
    [args[pos]] is in range, so the second [None] answer is never
    given. *)
Definition arg (oid : nat) (key : string) : Handler :=
  {| hid := oid;
     scan := fun args pos acc =>
       if (0 <? length acc) || (Z.of_nat (length args) - 1 <? Z.of_nat pos)%Z
       then Some NoClaim
       else match args !! pos with
            | Some a => Some (Claim (plain [a]))
            | None => Some NoClaim
            end;
     value := fun args =>
       match args with
       | [] => Val VUndef
       | g :: _ => match toks g !! 0 with
                   | Some v => Val (VStr v)
                   | None => Val VUndef
                   end
       end;
     opts := {| key := key; opt_help := None; opt_group := None;
                activators := None |} |}.

(** The [for (let o of opt)] loop of [oneof]'s scan closure; [i] is the
    index of [o] in the whole list and [errors] the messages so far. *)
Fixpoint oneof_scan (wm : nat) (opt : list CliParser) (args : list string)
  (pos : nat) (i : nat) (errors : list string) : option ScanRes :=
  match opt with
  | [] => Some (ScanErr (Js.join ", " errors))
  | o :: rest =>
      match doScan o args pos with
      | None => None
      | Some (ScanFail message) =>
          oneof_scan wm rest args pos (i + 1) (errors ++ [message])
      | Some (ScanOk try_pos try_mapres) =>
          Some (Claim (Group (Js.slice args pos try_pos) (Some (wm, i, try_mapres))))
      end
  end.

(** [wm.get(res)]: the entry registered for the array [res], if it was
    registered in this side table. *)
Definition wm_get (wm : nat) (opt : list CliParser) (res : group)
  : option (gmap nat (list group) * CliParser) :=
  match origin res with
  | Some (w, i, mapres) =>
      if w =? wm then
        match opt !! i with
        | Some o => Some (mapres, o)
        | None => None
        end
      else None
  | None => None
  end.

(** [oneof(...opt).as(key)]; [wm] names the [WeakMap] the call creates. *)
Definition oneof (oid wm : nat) (opt : list CliParser) (key : string) : Handler :=
  {| hid := oid;
     scan := fun args pos _ => oneof_scan wm opt args pos 0 [];
     value := fun args =>
       if 1 <? length args then Throw "?!"
       else match args with
            | [] => Val VUndef
            | g :: _ =>
                match wm_get wm opt g with
                | None => Val VUndef
                | Some (mapres, o) => doValues o mapres
                end
            end;
     opts := {| key := key; opt_help := None; opt_group := None;
                activators := None |} |}.

Definition expected (value : string) : string := "expected " +:+ quoted value.

Definition expect (oid : nat) (value : string) (key : string) : Handler :=
  {| hid := oid;
     scan := fun argv pos acc =>
       let arg := argv !! pos in
       if 0 <? length acc then Some NoClaim
       else match arg with
            | Some a => if String.eqb a value then Some (Claim (plain [a]))
                        else Some (ScanErr (expected value))
            | None => Some (ScanErr (expected value))
            end;
     value := fun _ => Val (VStr value);
     opts := {| key := key; opt_help := None; opt_group := None;
                activators := None |} |}.

(** ** [class CliParser]: construction and [parse] (index.ts 269-365) *)

Definition new_CliParser : CliParser :=
  {| handlers := []; _prelude := EmptyString; _epilogue := EmptyString |}.

Definition prelude (pre : string) (this : CliParser) : CliParser :=
  {| handlers := handlers this; _prelude := pre; _epilogue := _epilogue this |}.

Definition epilogue (epi : string) (this : CliParser) : CliParser :=
  {| handlers := handlers this; _prelude := _prelude this; _epilogue := epi |}.

Definition clone (this : CliParser) : CliParser :=
  {| handlers := handlers this; _prelude := _prelude this;
     _epilogue := _epilogue this |}.

Definition include (other : CliParser) (this : CliParser) : CliParser :=
  let n := clone this in
  {| handlers := handlers n ++ handlers other; _prelude := _prelude n;
     _epilogue := _epilogue n |}.

(** [add_handler(...hld)]: each item is a handler or a whole parser. *)
Definition add_handler (hld : list (Handler + CliParser)) (this : CliParser)
  : CliParser :=
  let n := clone this in
  {| handlers :=
       fold_left (fun hs h => match h with
                              | inl h => hs ++ [h]
                              | inr p => hs ++ handlers p
                              end) hld (handlers n);
     _prelude := _prelude n; _epilogue := _epilogue n |}.

Definition optparser (h : list (Handler + CliParser)) : CliParser :=
  add_handler h new_CliParser.

(** How a call of [parse] ends: it returns the result object, it throws
    an [Error], or it reports [unrecognized argument] for [args[r.pos]]
    and calls [process.exit(1)]. *)
Inductive ParseRes :=
| Parsed (r : jsval)
| Thrown (message : string)
| Unrecognized (argument : option string).

Definition parse (this : CliParser) (args : list string) : option ParseRes :=
  let args := expand_flags args in
  match doScan this args 0 with
  | None => None
  | Some (ScanFail message) => Some (Thrown ("match error: " +:+ message))
  | Some (ScanOk pos mapres) =>
      if negb (pos =? length args) then Some (Unrecognized (args !! pos))
      else match doValues this mapres with
           | MatchErr message => Some (Thrown ("match error: " +:+ message))
           | Throw message => Some (Thrown message)
           | Val r2 => Some (Parsed r2)
           end
  end.

(** ** The handlers this module can build *)

(** [Handler]'s constructor is a record of arbitrary closures; the
    properties of scan runs concern the handlers obtained from the
    five primitives and the combinators. *)
Inductive Built : Handler -> Prop :=
| Built_flag id activators key : Built (flag id activators key)
| Built_param id activators key : Built (param id activators key)
| Built_arg id key : Built (arg id key)
| Built_expect id value key : Built (expect id value key)
| Built_oneof id wm opt key : BuiltParsers opt -> Built (oneof id wm opt key)
| Built_required id h : Built h -> Built (H.required id h)
| Built_map id fn h : Built h -> Built (H.map id fn h)
| Built_default id v h : Built h -> Built (H.default id v h)
| Built_repeat id h : Built h -> Built (H.repeat id h)
| Built_help text h : Built h -> Built (H.help text h)
| Built_group label h : Built h -> Built (H.group label h)
with BuiltHandlers : list Handler -> Prop :=
| BuiltHandlers_nil : BuiltHandlers []
| BuiltHandlers_cons h hs : Built h -> BuiltHandlers hs -> BuiltHandlers (h :: hs)
with BuiltParsers : list CliParser -> Prop :=
| BuiltParsers_nil : BuiltParsers []
| BuiltParsers_cons p ps :
    BuiltHandlers (handlers p) -> BuiltParsers ps -> BuiltParsers (p :: ps).

Scheme Built_mind := Minimality for Built Sort Prop
  with BuiltHandlers_mind := Minimality for BuiltHandlers Sort Prop
  with BuiltParsers_mind := Minimality for BuiltParsers Sort Prop.

Combined Scheme Built_mutind
  from Built_mind, BuiltHandlers_mind, BuiltParsers_mind.

(** ** Vocabulary for the properties of scan runs *)

(** A group claimed at [pos] is a non-empty slice of [args] that starts
    at [pos] and ends inside the token stream. *)
Definition good_claim (args : list string) (pos : nat) (g : group) : Prop :=
  0 < length (toks g)
  /\ pos + length (toks g) <= length args
  /\ toks g = Js.slice args pos (pos + length (toks g)).

(** Inside the token stream, the scan closure of [h] returns, and what
    it claims is a good claim. *)
Definition scan_ok (h : Handler) : Prop :=
  forall args pos acc, pos < length args ->
    exists r, scan h args pos acc = Some r
              /\ forall g, r = Claim g -> good_claim args pos g.

(** [trace] lists claims, [(identity of the claiming handler, group)],
    that tile the range [lo, hi) of [args]: each group is the non-empty
    slice that starts where the previous one ended. *)
Inductive tiles (args : list string) : nat -> nat -> list (nat * group) -> Prop :=
| tiles_nil lo : tiles args lo lo []
| tiles_cons lo hi id g rest :
    good_claim args lo g ->
    tiles args (lo + length (toks g)) hi rest ->
    tiles args lo hi ((id, g) :: rest).

(** The groups of [trace] claimed by the handler object [id], in order. *)
Definition claimed_by (id : nat) (trace : list (nat * group)) : list group :=
  map snd (List.filter (fun c => fst c =? id) trace).

(** Every claim of [trace] was made by a handler of [hs], and every
    handler's accumulator holds exactly its claims of [trace]. *)
Definition accs_agree (hs : list Handler) (mapres : gmap nat (list group))
  (trace : list (nat * group)) : Prop :=
  (forall c, c ∈ trace -> exists h, h ∈ hs /\ hid h = fst c)
  /\ (forall h, h ∈ hs -> mapres !! hid h = Some (claimed_by (hid h) trace)).

(** [v] begins with ["-"] *)
Definition begins_with_dash (v : string) : Prop :=
  exists rest, v = String "-" rest.

(** ** Example parsers *)

Module Ex.

(** [optparser(flag("-v").as("v"))] *)
Definition verbose : CliParser :=
  optparser [inl (flag 1 ["-v"] "v")].

(** [optparser(flag("-v").as("v"), arg("a"), arg("b"))] *)
Definition flag_then_args : CliParser :=
  optparser [inl (flag 3 ["-v"] "v"); inl (arg 1 "a"); inl (arg 2 "b")].

(** [optparser(arg("a"), arg("b"), flag("-v").as("v"))] *)
Definition args_then_flag : CliParser :=
  optparser [inl (arg 1 "a"); inl (arg 2 "b"); inl (flag 3 ["-v"] "v")].

(** [optparser(oneof(optparser(arg("x"))).as("k"))] *)
Definition one_alternative : CliParser :=
  optparser [inl (oneof 1 0 [optparser [inl (arg 2 "x")]] "k")].

(** [optparser(oneof(optparser(expect("other").as("o")),
                     optparser(expect("lit").as("l"))).as("k"))] *)
Definition two_alternatives : CliParser :=
  optparser [inl (oneof 1 0 [optparser [inl (expect 2 "other" "o")];
                             optparser [inl (expect 3 "lit" "l")]] "k")].

(** [optparser(flag("-v").as("v"),
              oneof(optparser(flag("-w").as("w"))).as("k"))] *)
Definition flag_then_alternative : CliParser :=
  optparser [inl (flag 1 ["-v"] "v");
             inl (oneof 2 0 [optparser [inl (flag 3 ["-w"] "w")]] "k")].

(** [optparser(new Handler((args, pos, acc) => ["a", "b", "c"],
                           () => undefined, {key: "g"}))]: a handler
    written by hand, whose scan claims three tokens wherever it is
    asked. *)
Definition greedy : CliParser :=
  optparser [inl {| hid := 1;
                    scan := fun _ _ _ => Some (Claim (plain ["a"; "b"; "c"]));
                    value := fun _ => Val VUndef;
                    opts := {| key := "g"; opt_help := None; opt_group := None;
                               activators := None |} |}].

End Ex.

(** ** Flags declared before two positionals *)

(** A flag handler from its identity, activators and key. *)
Definition flag_of (s : nat * list string * string) : Handler :=
  flag s.1.1 s.1.2 s.2.

(** [t] is an activator of one of the flags [fs]. *)
Definition activates (fs : list (nat * list string * string)) (t : string) : Prop :=
  exists s, s ∈ fs /\ t ∈ effective s.1.2 s.2.

(** The tokens that remain when [seen] of the two positional tokens [x]
    and [y] have been passed: activator tokens of the flags, with the
    positional tokens still to come among them, [x] before [y]. *)
Inductive remaining (fs : list (nat * list string * string)) (x y : string)
  : nat -> list string -> Prop :=
| remaining_end : remaining fs x y 2 []
| remaining_flag seen t rest :
    activates fs t -> remaining fs x y seen rest ->
    remaining fs x y seen (t :: rest)
| remaining_first rest :
    remaining fs x y 1 rest -> remaining fs x y 0 (x :: rest)
| remaining_second rest :
    remaining fs x y 2 rest -> remaining fs x y 1 (y :: rest).

(** [optparser(...flags, arg(ka), arg(kb))] *)
Definition positionals (ia ib : nat) (ka kb : string) : list Handler :=
  [arg ia ka; arg ib kb].

Definition flags_first (fs : list (nat * list string * string))
  (ia ib : nat) (ka kb : string) : list Handler :=
  map flag_of fs ++ positionals ia ib ka kb.

(** What the accumulators of the two positionals hold when [seen] of
    the positional tokens have been passed. *)
Definition bound (ia ib : nat) (x y : string) (seen : nat)
  (m : gmap nat (list group)) : Prop :=
  m !! ia = Some (if 1 <=? seen then [plain [x]] else [])
  /\ m !! ib = Some (if 2 <=? seen then [plain [y]] else []).

(** ** Vocabulary for the further properties *)

(** The number of leading tokens of [toks] that are among [acts]. *)
Fixpoint leading (acts : list string) (toks : list string) : nat :=
  match toks with
  | t :: rest => if includes acts (Some t) then S (leading acts rest) else 0
  | [] => 0
  end.

(** The group a handler claims when it claims the single token [t]. *)
Definition single (t : string) : group := plain [t].

(** A token the normaliser leaves alone: one that does not begin with
    ["-"], a ["--"] token without ["="], or a ["-"] followed by exactly
    one character other than ["="]. *)
Definition settled (t : string) : bool :=
  if NormalizerSpec.starts_with "--" t then negb (Js.str_includes "=" t)
  else if NormalizerSpec.starts_with "-" t
       then (String.length t =? 2) && negb (Js.char_is t 1 "=")
       else true.

(** The handlers an argument of [add_handler] stands for. *)
Definition item_handlers (item : Handler + CliParser) : list Handler :=
  match item with
  | inl h => [h]
  | inr p => handlers p
  end.

(** * Properties *)

(** ** Assignments to the result object *)

Section Objects.

Lemma set_property_ne (key : string) r (res : gmap string jsval) :
  key <> "__proto__" -> set_property key r res = <[key := r]> res.
Proof.
  intros Hne. unfold set_property.
  apply String.eqb_neq in Hne. now rewrite Hne.
Qed.

Lemma set_property_proto r (res : gmap string jsval) :
  set_property "__proto__" r res = res.
Proof. reflexivity. Qed.



End Objects.

(** ** The normaliser *)

Section Normalizer.

Lemma get_slice_from (s : string) : forall i c rest,
  Js.str_slice_from i s = String c rest ->
  String.get i s = Some c /\ Js.str_slice_from (i + 1) s = rest.
Proof.
  induction s as [|d s IH]; intros [|i] c rest Hs; simpl in *; try discriminate.
  - inversion Hs; subst. split; [reflexivity | now destruct rest].
  - apply IH in Hs. exact Hs.
Qed.

Lemma expand_short_split (s : string) : forall n i res,
  n = String.length (Js.str_slice_from i s) ->
  expand_short n s i res = res ++ NormalizerSpec.split_short (Js.str_slice_from i s).
Proof.
  induction n as [|n IH]; intros i res Hn; simpl.
  - destruct (Js.str_slice_from i s); [|discriminate].
    simpl. now rewrite app_nil_r.
  - destruct (Js.str_slice_from i s) as [|c rest] eqn:Hs; [discriminate|].
    apply get_slice_from in Hs as [Hget Hrest]. rewrite Hget. simpl.
    destruct (Ascii.eqb c "="); [now rewrite Hrest|].
    rewrite IH by (rewrite Hrest; simpl in Hn; congruence).
    rewrite Hrest, <- app_assoc. reflexivity.
Qed.

Lemma search_nonneg (s : string) :
  Js.str_includes "=" s = true -> (0 <= Js.str_search "=" s)%Z.
Proof.
  induction s as [|d s IH]; simpl; [discriminate|].
  destruct (Ascii.eqb d "="); [lia|]. intros Hinc. specialize (IH Hinc).
  destruct (Z.ltb_spec (Js.str_search "=" s) 0); lia.
Qed.

Lemma split_at_eq_search (s : string) :
  NormalizerSpec.split_at_eq s =
  if Js.str_includes "=" s
  then let first := Z.to_nat (Js.str_search "=" s) in
       Some (Js.str_slice_to first s, Js.str_slice_from (first + 1) s)
  else None.
Proof.
  induction s as [|d s IH]; simpl; [reflexivity|].
  destruct (Ascii.eqb d "=") eqn:Hd.
  - simpl. now destruct s.
  - rewrite IH. destruct (Js.str_includes "=" s) eqn:Hinc; [|reflexivity].
    pose proof (search_nonneg s Hinc) as Hge.
    destruct (Z.ltb_spec (Js.str_search "=" s) 0) as [Hlt|_]; [lia|].
    cbv zeta.
    replace (Z.to_nat (Js.str_search "=" s + 1))
      with (S (Z.to_nat (Js.str_search "=" s))) by lia.
    reflexivity.
Qed.

Lemma char_is_prefix1 (s : string) :
  Js.char_is s 0 "-" = NormalizerSpec.starts_with "-" s.
Proof.
  destruct s as [|c s]; [reflexivity|]. unfold Js.char_is. simpl.
  now rewrite andb_true_r.
Qed.

Lemma char_is_prefix2 (s : string) :
  Js.char_is s 0 "-" && Js.char_is s 1 "-" = NormalizerSpec.starts_with "--" s.
Proof.
  destruct s as [|c [|d s]]; unfold Js.char_is; simpl.
  - reflexivity.
  - now rewrite andb_false_r.
  - now rewrite andb_true_r.
Qed.

(** One iteration of the outer loop appends what the specification
    says the token becomes. *)
Lemma expand_arg_normalize (res : list string) (arg : string) :
  expand_arg res arg = res ++ NormalizerSpec.normalize_token arg.
Proof.
  unfold expand_arg, NormalizerSpec.normalize_token.
  rewrite <- char_is_prefix2, <- char_is_prefix1.
  destruct (Js.char_is arg 0 "-") eqn:H0; simpl; [|reflexivity].
  destruct (Js.char_is arg 1 "-") eqn:H1; simpl.
  - rewrite split_at_eq_search.
    destruct (Js.str_includes "=" arg); [|reflexivity].
    cbv zeta. now rewrite <- app_assoc.
  - destruct arg as [|c rest]; [discriminate|].
    rewrite (expand_short_split _ _ 1 res); simpl; [reflexivity|].
    destruct rest; simpl; [reflexivity | lia].
Qed.

Lemma expand_fold (argv : list string) : forall res,
  fold_left expand_arg argv res = res ++ NormalizerSpec.normalize argv.
Proof.
  induction argv as [|a argv IH]; intros res; simpl.
  - now rewrite app_nil_r.
  - rewrite IH, expand_arg_normalize, <- app_assoc. reflexivity.
Qed.

(** C5. [expand_flags] is the token-by-token normalisation of the
    specification: a token beginning with a single ["-"] becomes one
    ["-c"] token per character after the dash, except that what
    follows an ["="] is one final value token; a token beginning with
    ["--"] that contains an ["="] is split at the first ["="]; every
    other token passes through; the pieces come in the order of the
    tokens.  The four examples of the specification follow. *)
Theorem expand_flags_normalizes :
  (forall argv, expand_flags argv = flat_map NormalizerSpec.normalize_token argv)
  /\ expand_flags ["-abc"] = ["-a"; "-b"; "-c"]
  /\ expand_flags ["-a=5"] = ["-a"; "5"]
  /\ expand_flags ["--foo=bar"] = ["--foo"; "bar"]
  /\ expand_flags ["pos"] = ["pos"].
Proof.
  split; [|repeat split; reflexivity].
  intros argv. unfold expand_flags. now rewrite expand_fold.
Qed.

End Normalizer.

(** ** Slices *)

Section Slices.

Context {A : Type}.
Implicit Types (l : list A).

Lemma slice_length l from to :
  length (Js.slice l from to) = Nat.min (to - from) (length l - from).
Proof. unfold Js.slice. now rewrite length_take, length_drop. Qed.

Lemma slice_one l i x : l !! i = Some x -> Js.slice l i (i + 1) = [x].
Proof.
  intros Hx. unfold Js.slice. rewrite (drop_S _ _ _ Hx).
  replace (i + 1 - i) with 1 by lia. reflexivity.
Qed.

Lemma slice_two l i x y :
  l !! i = Some x -> l !! (i + 1) = Some y -> Js.slice l i (i + 2) = [x; y].
Proof.
  intros Hx Hy. unfold Js.slice. rewrite (drop_S _ _ _ Hx).
  replace (i + 1) with (S i) in Hy by lia. rewrite (drop_S _ _ _ Hy).
  replace (i + 2 - i) with 2 by lia. reflexivity.
Qed.

End Slices.

(** ** Every handler of the module makes good claims *)

Section GoodClaims.

Lemma good_slice (args : list string) pos k o :
  0 < k -> pos + k <= length args ->
  good_claim args pos (Group (Js.slice args pos (pos + k)) o).
Proof.
  intros Hk Hle. unfold good_claim. simpl. rewrite slice_length.
  replace (Nat.min (pos + k - pos) (length args - pos)) with k by lia.
  repeat split; [lia | lia].
Qed.

Lemma good_one (args : list string) pos a :
  args !! pos = Some a -> good_claim args pos (plain [a]).
Proof.
  intros Ha. pose proof (lookup_lt_Some _ _ _ Ha) as Hlt.
  rewrite <- (slice_one _ _ _ Ha). apply (good_slice args pos 1); lia.
Qed.

Lemma tiles_snoc args lo hi tr id g :
  tiles args lo hi tr -> good_claim args hi g ->
  tiles args lo (hi + length (toks g)) (tr ++ [(id, g)]).
Proof.
  induction 1 as [lo|lo hi id' g' rest Hg' _ IH]; intros Hg; simpl.
  - apply tiles_cons; [exact Hg | apply tiles_nil].
  - apply tiles_cons; [exact Hg' | exact (IH Hg)].
Qed.

Lemma tiles_le args lo hi tr : tiles args lo hi tr -> lo <= hi.
Proof. induction 1 as [|lo hi id g rest [Hpos _] _ IH]; lia. Qed.

Lemma tiles_empty args lo tr : tiles args lo lo tr -> tr = [].
Proof.
  inversion 1 as [|? ? ? g rest [Hpos _] Hrest]; subst; [reflexivity|].
  apply tiles_le in Hrest. lia.
Qed.

Lemma claimed_by_snoc id tr id' g :
  claimed_by id (tr ++ [(id', g)]) =
  claimed_by id tr ++ (if id' =? id then [g] else []).
Proof.
  unfold claimed_by. rewrite List.filter_app, map_app. simpl.
  now destruct (id' =? id).
Qed.

Lemma scan_ok_flag oid activators key : scan_ok (flag oid activators key).
Proof.
  intros args pos acc Hpos. simpl.
  destruct (args !! pos) as [a|] eqn:Ha; simpl.
  - destruct (existsb (String.eqb a) (effective activators key)).
    + eexists; split; [reflexivity|]. intros g [= <-]. now apply good_one.
    + eexists; split; [reflexivity|]. discriminate.
  - eexists; split; [reflexivity|]. discriminate.
Qed.

Lemma scan_ok_param oid activators key : scan_ok (param oid activators key).
Proof.
  intros args pos acc Hpos. simpl.
  destruct (includes (effective activators key) (args !! pos));
    (eexists; split; [reflexivity|]); [|discriminate].
  intros g [= <-].
  destruct (args !! (pos + 1)) as [v|] eqn:Hv; simpl.
  - pose proof (lookup_lt_Some _ _ _ Hv).
    destruct (Js.char_is v 0 "-"); apply good_slice; lia.
  - apply good_slice; lia.
Qed.

(** Behind its guard, [arg] reads a token that exists. *)
Lemma arg_reads_in_range (args : list string) pos :
  (Z.of_nat (length args) - 1 <? Z.of_nat pos)%Z = false ->
  is_Some (args !! pos).
Proof. intros Hguard. apply Z.ltb_ge in Hguard. apply lookup_lt_is_Some. lia. Qed.

Lemma scan_ok_arg oid key : scan_ok (arg oid key).
Proof.
  intros args pos acc Hpos. simpl.
  destruct ((0 <? length acc) || (Z.of_nat (length args) - 1 <? Z.of_nat pos)%Z);
    [eexists; split; [reflexivity | discriminate]|].
  destruct (args !! pos) as [a|] eqn:Ha;
    (eexists; split; [reflexivity|]); [|discriminate].
  intros g [= <-]. now apply good_one.
Qed.

Lemma scan_ok_expect oid lit key : scan_ok (expect oid lit key).
Proof.
  intros args pos acc Hpos. simpl.
  destruct (0 <? length acc); [eexists; split; [reflexivity | discriminate]|].
  destruct (args !! pos) as [a|] eqn:Ha;
    [|eexists; split; [reflexivity | discriminate]].
  destruct (String.eqb a lit);
    (eexists; split; [reflexivity|]); [|discriminate].
  intros g [= <-]. now apply good_one.
Qed.

End GoodClaims.

(** ** The scanning loop *)

Section ScanLoop.

Lemma scanargs_eq fuel hs args pos m :
  scanargs fuel hs args pos m =
  if pos <? length args then
    match fuel with
    | 0 => None
    | S fuel' =>
        match pass hs args pos m with
        | None => None
        | Some (PassErr e) => Some (Aborted e)
        | Some PassNone => Some (Ended pos m)
        | Some (PassClaim h res) =>
            scanargs fuel' hs args (pos + length (toks res))
              (<[hid h := acc_of m h ++ [res]]> m)
        end
    end
  else Some (Ended pos m).
Proof. destruct fuel; reflexivity. Qed.

Lemma pass_ok hs args pos m :
  Forall scan_ok hs -> pos < length args ->
  exists r, pass hs args pos m = Some r
            /\ forall h g, r = PassClaim h g -> h ∈ hs /\ good_claim args pos g.
Proof.
  intros Hok Hpos. induction Hok as [|h hs Hh _ IH]; simpl.
  - eexists; split; [reflexivity | discriminate].
  - destruct (Hh args pos (acc_of m h) Hpos) as (r & -> & Hr).
    destruct r as [g| |e].
    + eexists; split; [reflexivity|]. intros h' g' [= <- <-].
      split; [apply list_elem_of_here | now apply Hr].
    + destruct IH as (r & -> & Hr'). eexists; split; [reflexivity|].
      intros h' g' Heq. destruct (Hr' h' g' Heq) as [Hin Hg].
      split; [now apply list_elem_of_further | exact Hg].
    + eexists; split; [reflexivity | discriminate].
Qed.

Lemma init_mapres_fold (hs : list Handler) : forall (m0 : gmap nat (list group)) k,
  (exists h, h ∈ hs /\ hid h = k) \/ m0 !! k = Some [] ->
  fold_left (fun m h => <[hid h := []]> m) hs m0 !! k = Some [].
Proof.
  induction hs as [|h hs IH]; intros m0 k Hk; simpl.
  - destruct Hk as [(h & Hin & _)|Hk]; [|exact Hk]. inversion Hin.
  - apply IH. destruct (decide (hid h = k)) as [<-|Hne].
    + right. apply lookup_insert_eq.
    + destruct Hk as [(h' & Hin & Hh')|Hk].
      * apply elem_of_cons in Hin as [->|Hin]; [congruence|].
        left. now exists h'.
      * right. now rewrite lookup_insert_ne.
Qed.

Lemma init_mapres_agree hs : accs_agree hs (init_mapres hs) [].
Proof.
  split; [intros c Hc; inversion Hc|].
  intros h Hin. unfold init_mapres. apply init_mapres_fold. left. now exists h.
Qed.

Lemma claim_agree hs m tr h g :
  accs_agree hs m tr -> h ∈ hs ->
  accs_agree hs (<[hid h := acc_of m h ++ [g]]> m) (tr ++ [(hid h, g)]).
Proof.
  intros [Hfrom Hagree] Hin. split.
  - intros c Hc. apply elem_of_app in Hc as [Hc|Hc]; [now apply Hfrom|].
    apply list_elem_of_singleton in Hc as ->. now exists h.
  - intros h' Hin'. rewrite claimed_by_snoc.
    destruct (decide (hid h = hid h')) as [Heq|Hne].
    + rewrite Heq, lookup_insert_eq, Nat.eqb_refl. unfold acc_of.
      rewrite Heq, (Hagree h' Hin'). reflexivity.
    + rewrite lookup_insert_ne by exact Hne.
      apply Nat.eqb_neq in Hne. rewrite Hne, app_nil_r. now apply Hagree.
Qed.

(** The loop invariant: the claims made so far tile the tokens from
    the starting position to the current one, and the accumulators
    hold them. *)
Lemma scanargs_inv hs args init :
  Forall scan_ok hs ->
  forall fuel pos m tr,
    pos <= length args -> length args - pos <= fuel ->
    tiles args init pos tr -> accs_agree hs m tr ->
    exists r, scanargs fuel hs args pos m = Some r
      /\ forall p' m', r = Ended p' m' ->
           pos <= p' <= length args
           /\ (p' = pos -> m' = m)
           /\ exists tr', tiles args init p' tr' /\ accs_agree hs m' tr'.
Proof.
  intros Hok. induction fuel as [|fuel IH]; intros pos m tr Hle Hfuel Htiles Hagree;
    rewrite scanargs_eq; destruct (Nat.ltb_spec pos (length args)) as [Hlt|Hge];
    try lia.
  - eexists; split; [reflexivity|]. intros p' m' [= <- <-].
    repeat split; try lia. now exists tr.
  - destruct (pass_ok hs args pos m Hok Hlt) as (r & -> & Hr).
    destruct r as [h g|e|].
    + destruct (Hr h g eq_refl) as [Hin Hg].
      pose proof Hg as (Hlen & Hend & _).
      destruct (IH (pos + length (toks g)) (<[hid h := acc_of m h ++ [g]]> m)
                  (tr ++ [(hid h, g)])) as (r & Hrun & Hr');
        [lia | lia | now apply tiles_snoc | now apply claim_agree|].
      exists r; split; [exact Hrun|]. intros p' m' ->.
      destruct (Hr' p' m' eq_refl) as (Hp' & _ & Htr'). repeat split; try lia.
      exact Htr'.
    + eexists; split; [reflexivity | discriminate].
    + eexists; split; [reflexivity|]. intros p' m' [= <- <-].
      repeat split; try lia. now exists tr.
  - eexists; split; [reflexivity|]. intros p' m' [= <- <-].
    repeat split; try lia. now exists tr.
Qed.

(** A scan run that starts inside the token stream returns; when it
    succeeds, it consumed at least one token and its claims tile what
    it consumed. *)
Lemma doScan_ok p args init :
  Forall scan_ok (handlers p) -> init <= length args ->
  exists out, doScan p args init = Some out
    /\ forall pos m, out = ScanOk pos m ->
         init <= pos <= length args
         /\ (init < length args -> init < pos)
         /\ exists tr, tiles args init pos tr /\ accs_agree (handlers p) m tr.
Proof.
  intros Hok Hle. unfold doScan.
  destruct (scanargs_inv (handlers p) args init Hok (length args - init) init
              (init_mapres (handlers p)) [])
    as (r & -> & Hr);
    [lia | lia | apply tiles_nil | apply init_mapres_agree|].
  destruct r as [pos m|e]; [|eexists; split; [reflexivity | discriminate]].
  destruct (Hr pos m eq_refl) as (Hpos & _ & Htr).
  destruct (Nat.eqb_spec pos init) as [->|Hne]; simpl.
  - destruct (Nat.ltb_spec init (length args)) as [Hlt|Hge].
    + eexists; split; [reflexivity | discriminate].
    + eexists; split; [reflexivity|]. intros pos m' [= <- <-].
      repeat split; try lia. exact Htr.
  - eexists; split; [reflexivity|]. intros pos' m' [= <- <-].
    repeat split; try lia. exact Htr.
Qed.

Lemma oneof_scan_ok wm opt args pos :
  Forall (fun p => Forall scan_ok (handlers p)) opt -> pos < length args ->
  forall i errors,
    exists r, oneof_scan wm opt args pos i errors = Some r
              /\ forall g, r = Claim g -> good_claim args pos g.
Proof.
  intros Hopt Hpos. induction Hopt as [|o opt Ho _ IH]; intros i errors; simpl.
  - eexists; split; [reflexivity | discriminate].
  - destruct (doScan_ok o args pos Ho) as (out & -> & Hout); [lia|].
    destruct out as [p' m'|e]; [|apply IH].
    eexists; split; [reflexivity|]. intros g [= <-].
    destruct (Hout p' m' eq_refl) as (Hp' & Hadv & _). specialize (Hadv Hpos).
    replace p' with (pos + (p' - pos)) by lia. apply good_slice; lia.
Qed.

(** Every handler obtained from the primitives and the combinators
    makes good claims. *)
Lemma Built_scan_ok_all :
  (forall h, Built h -> scan_ok h)
  /\ (forall hs, BuiltHandlers hs -> Forall scan_ok hs)
  /\ (forall ps, BuiltParsers ps ->
        Forall (fun p => Forall scan_ok (handlers p)) ps).
Proof.
  apply Built_mutind.
  - apply scan_ok_flag.
  - apply scan_ok_param.
  - apply scan_ok_arg.
  - apply scan_ok_expect.
  - intros oid wm opt key _ Hopt args pos acc Hpos.
    now apply oneof_scan_ok.
  - intros oid h _ IH. exact IH.
  - intros oid fn h _ IH. exact IH.
  - intros oid v h _ IH. exact IH.
  - intros oid h _ IH args pos acc Hpos. exact (IH args pos [] Hpos).
  - intros text h _ IH. exact IH.
  - intros label h _ IH. exact IH.
  - constructor.
  - intros h hs _ Hh _ Hhs. now constructor.
  - constructor.
  - intros p ps _ Hp _ Hps. now constructor.
Qed.

Lemma Built_scan_ok hs : BuiltHandlers hs -> Forall scan_ok hs.
Proof. apply Built_scan_ok_all. Qed.

End ScanLoop.

(** ** Scan runs: termination, positions and accumulators *)

Section ScanRuns.

(** [doScan] returns on every parser of built handlers: the bound on
    the iterations of [scanargs] is never reached. *)
Lemma doScan_returns p args init :
  BuiltHandlers (handlers p) -> is_Some (doScan p args init).
Proof.
  intros Hb. destruct (Nat.le_gt_cases init (length args)) as [Hle|Hgt].
  - destruct (doScan_ok p args init (Built_scan_ok _ Hb) Hle) as (out & -> & _).
    now eexists.
  - unfold doScan. rewrite scanargs_eq.
    destruct (Nat.ltb_spec init (length args)) as [Hlt|_]; [lia|].
    destruct ((init =? init) && (init <? length args)); now eexists.
Qed.

Lemma parse_returns p args :
  BuiltHandlers (handlers p) -> is_Some (parse p args).
Proof.
  intros Hb. unfold parse.
  destruct (doScan_returns p (expand_flags args) 0 Hb) as [out ->].
  destruct out as [pos m|e]; [|now eexists].
  destruct (negb (pos =? length (expand_flags args))); [now eexists|].
  destruct (doValues p m); now eexists.
Qed.

Lemma tiles_cons_lt args lo hi c tr : tiles args lo hi (c :: tr) -> lo < hi.
Proof.
  inversion 1 as [|? ? ? g rest [Hpos _] Hrest]; subst.
  apply tiles_le in Hrest. lia.
Qed.

(** C9, as the code has it.  In a scan run that starts at a position
    not beyond the end of the token stream, over handlers that keep the
    contract of a scan (inside the stream the scan returns, and a group
    it claims is a non-empty slice of the stream that starts at the
    position and ends inside the stream; [Built_scan_ok]: every handler
    built from the primitives and the combinators keeps it): every turn
    of the loop that claims a group moves the position strictly forward
    and not beyond the end of the stream; the run returns, and when it
    succeeds the final position lies between the start and the length
    of the stream, and the groups claimed are, in claim order,
    consecutive non-empty slices of the stream that tile the consumed
    range, each handler's accumulator holding exactly the slices it
    claimed, in that order (so its groups are disjoint contiguous
    ranges in claim order). *)
Theorem scan_run_invariants (p : CliParser) (args : list string) (init : nat) :
  Forall scan_ok (handlers p) ->
  init <= length args ->
  (forall pos m h g,
      pos < length args ->
      pass (handlers p) args pos m = Some (PassClaim h g) ->
      pos < fst (claim h g pos m) <= length args)
  /\ exists out, doScan p args init = Some out
       /\ forall pos m, out = ScanOk pos m ->
            init <= pos <= length args
            /\ exists trace,
                 tiles args init pos trace
                 /\ (forall c, c ∈ trace ->
                       exists h, h ∈ handlers p /\ hid h = fst c)
                 /\ (forall h, h ∈ handlers p ->
                       m !! hid h = Some (claimed_by (hid h) trace)).
Proof.
  intros Hok Hle. split.
  - intros pos m h g Hpos Hpass.
    destruct (pass_ok (handlers p) args pos m Hok Hpos) as (r & Hr & Hgood).
    rewrite Hpass in Hr. injection Hr as <-.
    destruct (Hgood h g eq_refl) as (_ & Hlen & Hend & _). simpl. lia.
  - destruct (doScan_ok p args init Hok Hle) as (out & Hout & Hspec).
    exists out; split; [exact Hout|]. intros pos m ->.
    destruct (Hspec pos m eq_refl) as (Hpos & _ & tr & Htiles & Hfrom & Hagree).
    split; [exact Hpos|]. now exists tr.
Qed.

(** C9, as the specification states it, fails in two ways.  A handler
    written by hand that claims three tokens on a stream of one token
    leaves the scan at position 3, beyond the end of the stream; and a
    scan of any parser started at position 5 on a stream of one token
    returns position 5. *)
Lemma scan_run_beyond_the_end :
  (exists m, doScan Ex.greedy ["x"] 0 = Some (ScanOk 3 m))
  /\ ~ 3 <= length ["x"]
  /\ (exists m, doScan Ex.verbose ["x"] 5 = Some (ScanOk 5 m))
  /\ ~ 5 <= length ["x"].
Proof.
  split; [eexists; vm_compute; reflexivity|].
  split; [simpl; lia|].
  split; [eexists; vm_compute; reflexivity|].
  simpl; lia.
Qed.

Lemma first_pass hs args init tr fuel pos m :
  Forall scan_ok hs -> pos < length args -> length args - pos <= fuel ->
  tiles args init pos tr -> accs_agree hs m tr ->
  forall p' m', scanargs fuel hs args pos m = Some (Ended p' m') ->
    (p' = pos <-> pass hs args pos m = Some PassNone).
Proof.
  intros Hok Hlt Hfuel Htiles Hagree p' m'. rewrite scanargs_eq.
  destruct (Nat.ltb_spec pos (length args)) as [_|Hge]; [|lia].
  destruct fuel as [|fuel]; [lia|].
  destruct (pass_ok hs args pos m Hok Hlt) as (r & -> & Hr).
  destruct r as [h g|e|]; [|discriminate|intros [= <- <-]; tauto].
  destruct (Hr h g eq_refl) as [Hin Hg]. pose proof Hg as (Hlen & Hend & _).
  intros Hrun.
  destruct (scanargs_inv hs args init Hok fuel (pos + length (toks g))
              (<[hid h := acc_of m h ++ [g]]> m) (tr ++ [(hid h, g)]))
    as (r & Hrun' & Hr');
    [lia | lia | now apply tiles_snoc | now apply claim_agree|].
  rewrite Hrun in Hrun'. injection Hrun' as <-.
  destruct (Hr' p' m' eq_refl) as (Hp' & _). split; [lia | discriminate].
Qed.

(** For a parser of built handlers and a start inside the token
    stream, the loop of [doScan] is left in one of two ways.  When a
    handler's scan fails, [doScan] returns that handler's failure
    (for a [oneof], the joined messages of its alternatives).
    When the loop ends (its condition fails or a pass claims
    nothing) at position [pos], [doScan] returns the failure "nothing
    was consumed" if [pos] is still the starting position while
    tokens remain, and otherwise returns [pos] and the accumulators,
    even when tokens remain.  The position is still the start, with
    tokens remaining, exactly when the first pass claims nothing; it
    moved exactly when some handler claimed a group. *)
Theorem nothing_consumed_exactly (p : CliParser) (args : list string) (init : nat) :
  BuiltHandlers (handlers p) ->
  init <= length args ->
  exists r,
    scanargs (length args - init) (handlers p) args init
      (init_mapres (handlers p)) = Some r
    /\ match r with
       | Aborted e => doScan p args init = Some (ScanFail e)
       | Ended pos m =>
           init <= pos <= length args
           /\ (pos = init /\ pos < length args ->
               doScan p args init = Some (ScanFail nothing_was_consumed))
           /\ (~ (pos = init /\ pos < length args) ->
               doScan p args init = Some (ScanOk pos m))
           /\ (pos = init /\ pos < length args <->
               init < length args
               /\ pass (handlers p) args init (init_mapres (handlers p))
                  = Some PassNone)
           /\ (init < pos <-> exists h, h ∈ handlers p /\ acc_of m h <> [])
       end.
Proof.
  intros Hb Hle. pose proof (Built_scan_ok _ Hb) as Hok.
  destruct (scanargs_inv (handlers p) args init Hok (length args - init) init
              (init_mapres (handlers p)) [])
    as (r & Hrun & Hr);
    [lia | lia | apply tiles_nil | apply init_mapres_agree|].
  exists r; split; [exact Hrun|]. unfold doScan. rewrite Hrun.
  destruct r as [pos m|e]; [|reflexivity].
  destruct (Hr pos m eq_refl) as (Hpos & _ & tr & Htiles & Hfrom & Hagree).
  split; [exact Hpos|]. split; [|split; [|split]].
  - intros [-> Hlt]. rewrite Nat.eqb_refl.
    apply Nat.ltb_lt in Hlt. now rewrite Hlt.
  - intros Hnot. destruct (Nat.eqb_spec pos init) as [->|Hne]; [|reflexivity].
    destruct (Nat.ltb_spec init (length args)) as [Hlt|Hge]; [|reflexivity].
    exfalso. now apply Hnot.
  - split.
    + intros [-> Hlt]. split; [exact Hlt|].
      apply (first_pass (handlers p) args init [] _ init _ Hok Hlt
               (Nat.le_refl _) (tiles_nil _ _) (init_mapres_agree _) _ _ Hrun).
      reflexivity.
    + intros [Hlt Hpass].
      assert (pos = init) as ->; [|split; [reflexivity | exact Hlt]].
      now apply (first_pass (handlers p) args init [] _ init _ Hok Hlt
                   (Nat.le_refl _) (tiles_nil _ _) (init_mapres_agree _) _ _ Hrun).
  - split.
    + intros Hadv. destruct tr as [|[id g] tr].
      * inversion Htiles; lia.
      * destruct (Hfrom (id, g)) as (h & Hin & Hid); [apply list_elem_of_here|].
        exists h; split; [exact Hin|]. unfold acc_of.
        rewrite (Hagree h Hin). unfold claimed_by. simpl in *.
        rewrite Hid, Nat.eqb_refl. discriminate.
    + intros (h & Hin & Hacc). unfold acc_of in Hacc.
      rewrite (Hagree h Hin) in Hacc. destruct tr as [|c tr]; [now elim Hacc|].
      now apply tiles_cons_lt in Htiles.
Qed.





End ScanRuns.

(** ** The primitives and the combinators *)

Section Primitives.

Lemma includes_elem_of (activators : list string) (t : string) :
  includes activators (Some t) = true <-> t ∈ activators.
Proof.
  simpl. rewrite existsb_exists, list_elem_of_In. split.
  - intros (x & Hin & Heq). apply String.eqb_eq in Heq. now subst.
  - intros Hin. exists t. split; [exact Hin | apply String.eqb_refl].
Qed.

Lemma char_is_dash (v : string) :
  Js.char_is v 0 "-" = true <-> begins_with_dash v.
Proof.
  unfold Js.char_is, begins_with_dash. destruct v as [|c v]; simpl.
  - split; [discriminate | intros [rest Hrest]; discriminate].
  - rewrite Ascii.eqb_eq. split; [intros ->; now exists v|].
    intros [rest Hrest]. congruence.
Qed.

Lemma param_scan_eq oid activators key args pos acc :
  scan (param oid activators key) args pos acc =
  if includes (effective activators key) (args !! pos)
  then Some (Claim (plain (Js.slice args pos
               (if not_a_value (args !! (pos + 1)) then pos + 1 else pos + 2))))
  else Some NoClaim.
Proof. reflexivity. Qed.

(** C4. With [acts] the activators of [param(activators).as(key)]
    (the given ones, or ["--" + key] when none is given): the scan at
    [pos] claims a group iff the token at [pos] is one of [acts], and
    declines otherwise; the group is that token followed by the token
    at [pos + 1] when the latter exists and does not begin with ["-"],
    and that token alone otherwise; extraction yields the captured
    value of a single claimed group, nothing when no group was
    claimed or the group holds no value, and a failure when more than
    one group was claimed. *)
Theorem param_scan_and_value (oid : nat) (activators : list string) (key : string)
  (args : list string) (pos : nat) (acc : list group) :
  let h := param oid activators key in
  let acts := effective activators key in
  ((exists g, scan h args pos acc = Some (Claim g))
   <-> (exists t, args !! pos = Some t /\ t ∈ acts))
  /\ ((~ exists t, args !! pos = Some t /\ t ∈ acts) ->
      scan h args pos acc = Some NoClaim)
  /\ (forall g, scan h args pos acc = Some (Claim g) ->
      exists t, args !! pos = Some t /\ origin g = None
        /\ ((exists v, args !! (pos + 1) = Some v /\ ~ begins_with_dash v
                       /\ toks g = [t; v])
            \/ ((~ exists v, args !! (pos + 1) = Some v /\ ~ begins_with_dash v)
                /\ toks g = [t])))
  /\ value h [] = Val VUndef
  /\ (forall t o, value h [Group [t] o] = Val VUndef)
  /\ (forall t v o, value h [Group [t; v] o] = Val (VStr v))
  /\ (forall gs, 1 < length gs -> value h gs = MatchErr (only_once acts)).
Proof.
  intros h acts. subst h acts.
  pose proof (param_scan_eq oid activators key args pos acc) as Hscan.
  repeat split; try reflexivity.
  - intros [g Hg]. rewrite Hscan in Hg. destruct (args !! pos) as [t|] eqn:Ht.
    + exists t. split; [reflexivity|]. apply includes_elem_of.
      destruct (includes (effective activators key) (Some t));
        [reflexivity | discriminate].
    + discriminate.
  - intros (t & Ht & Hin). apply includes_elem_of in Hin.
    rewrite Hscan, Ht, Hin. now eexists.
  - intros Hnot. rewrite Hscan. destruct (args !! pos) as [t|] eqn:Ht; [|reflexivity].
    destruct (includes (effective activators key) (Some t)) eqn:Hinc; [|reflexivity].
    exfalso. apply Hnot. exists t. split; [reflexivity | now apply includes_elem_of].
  - intros g Hg. rewrite Hscan in Hg.
    destruct (args !! pos) as [t|] eqn:Ht; [|discriminate].
    exists t. split; [reflexivity|].
    destruct (includes (effective activators key) (Some t)); [|discriminate].
    injection Hg as <-. split; [reflexivity|].
    destruct (args !! (pos + 1)) as [v|] eqn:Hv; simpl.
    + destruct (Js.char_is v 0 "-") eqn:Hdash.
      * right. split; [|now apply slice_one].
        intros (v' & [= <-] & Hnd). apply Hnd. now apply char_is_dash.
      * left. exists v. split; [reflexivity|]. split; [|now apply slice_two].
        intros Hd. apply char_is_dash in Hd. congruence.
    + right. split; [|now apply slice_one]. intros (v' & Hv' & _). discriminate.
  - intros gs Hlen. simpl. apply Nat.ltb_lt in Hlen. now rewrite Hlen.
Qed.

Lemma repeat_loop_collects (this : Handler) (strs : list group) (vs : list jsval) :
  Forall2 (fun s v => value this [s] = Val v) strs vs ->
  forall res, H.repeat_loop this strs res
              = Val (VArr (res ++ List.filter (fun v => negb (nullish v)) vs)).
Proof.
  induction 1 as [|s v strs vs Hs _ IH]; intros res; simpl.
  - now rewrite app_nil_r.
  - rewrite Hs. destruct (nullish v); simpl; rewrite IH; [reflexivity|].
    now rewrite <- app_assoc.
Qed.

Lemma repeat_loop_fails (this : Handler) (pre : list group) (vs : list jsval) s post e :
  Forall2 (fun s v => value this [s] = Val v) pre vs ->
  value this [s] = MatchErr e ->
  forall res, H.repeat_loop this (pre ++ s :: post) res = MatchErr e.
Proof.
  intros Hpre Hs. induction Hpre as [|s' v pre vs Hs' _ IH]; intros res; simpl.
  - now rewrite Hs.
  - rewrite Hs'. destruct (nullish v); apply IH.
Qed.

(** C8. The value closure of [h.repeat()] applies the value closure of
    [h] to each claimed group on its own, in claimed order.  When
    every group extracts without failure, the result is the sequence
    of the extracted values that are present (neither [undefined] nor
    [null]), in that order.  When the groups before some group
    extract without failure and that group's extraction is a
    [MatchError], the result is that failure, whatever was collected
    before. *)
Theorem repeat_value (oid : nat) (this : Handler) (strs : list group) :
  (forall vs,
      Forall2 (fun s v => value this [s] = Val v) strs vs ->
      value (H.repeat oid this) strs
      = Val (VArr (List.filter (fun v => negb (nullish v)) vs)))
  /\ (forall pre s post vs e,
        strs = pre ++ s :: post ->
        Forall2 (fun s v => value this [s] = Val v) pre vs ->
        value this [s] = MatchErr e ->
        value (H.repeat oid this) strs = MatchErr e).
Proof.
  split.
  - intros vs Hvs. simpl. now rewrite (repeat_loop_collects this strs vs Hvs).
  - intros pre s post vs e -> Hpre Hs. simpl.
    now apply (repeat_loop_fails this pre vs).
Qed.

Lemma oneof_scan_skip wm args pos (pre : list CliParser) (msgs : list string) :
  Forall2 (fun o msg => doScan o args pos = Some (ScanFail msg)) pre msgs ->
  forall rest i errors,
    oneof_scan wm (pre ++ rest) args pos i errors
    = oneof_scan wm rest args pos (i + length pre) (errors ++ msgs).
Proof.
  induction 1 as [|o msg pre msgs Ho _ IH]; intros rest i errors; simpl.
  - now rewrite Nat.add_0_r, app_nil_r.
  - rewrite Ho, IH, <- app_assoc. simpl. f_equal. lia.
Qed.

(** C6. The scan closure of [oneof(...opt).as(key)] runs the scan of
    each alternative at the current position, in the listed order.
    When the alternatives before the [i]-th fail and the [i]-th
    succeeds at position [p] with accumulators [m], the handler
    claims the slice of the tokens from the current position to [p],
    and the value closure applied to that one group is the extraction
    of the [i]-th alternative over [m].  When every alternative fails,
    the scan is a failure whose message is the alternatives' messages
    in order, joined by [", "]. *)
Theorem oneof_first_match (oid wm : nat) (opt : list CliParser) (key : string)
  (args : list string) (pos : nat) (acc : list group) :
  let h := oneof oid wm opt key in
  (forall i o p m msgs,
      opt !! i = Some o ->
      Forall2 (fun o' msg => doScan o' args pos = Some (ScanFail msg))
        (take i opt) msgs ->
      doScan o args pos = Some (ScanOk p m) ->
      exists g, scan h args pos acc = Some (Claim g)
                /\ toks g = Js.slice args pos p
                /\ value h [g] = doValues o m)
  /\ (forall msgs,
        Forall2 (fun o' msg => doScan o' args pos = Some (ScanFail msg)) opt msgs ->
        scan h args pos acc = Some (ScanErr (Js.join ", " msgs))).
Proof.
  intros h. subst h. split.
  - intros i o p m msgs Hi Hpre Ho.
    exists (Group (Js.slice args pos p) (Some (wm, i, m))).
    split; [|split; [reflexivity|]].
    + simpl. rewrite <- (take_drop_middle opt i o Hi).
      rewrite (oneof_scan_skip wm args pos _ _ Hpre). simpl. rewrite Ho.
      rewrite length_take_le by (apply lookup_lt_Some in Hi; lia). reflexivity.
    + simpl. unfold wm_get. simpl. now rewrite Nat.eqb_refl, Hi.
  - intros msgs Hall. simpl.
    rewrite <- (app_nil_r opt), (oneof_scan_skip wm args pos _ _ Hall).
    reflexivity.
Qed.


End Primitives.

(** ** Whole parses *)

Section Parses.

Lemma pass_none hs args pos m :
  (forall h, h ∈ hs -> scan h args pos (acc_of m h) = Some NoClaim) ->
  pass hs args pos m = Some PassNone.
Proof.
  induction hs as [|h hs IH]; intros Hnone; simpl; [reflexivity|].
  rewrite (Hnone h) by apply list_elem_of_here.
  apply IH. intros h' Hin. apply Hnone. now apply list_elem_of_further.
Qed.

Lemma acc_of_init hs h : h ∈ hs -> acc_of (init_mapres hs) h = [].
Proof.
  intros Hin. unfold acc_of.
  now rewrite (proj2 (init_mapres_agree hs) h Hin).
Qed.

(** C3, as the code has it.  When every handler of the parser declines
    the token ["--unknown"], [parse(["--unknown"])] throws the error
    "match error: nothing was consumed": the scan fails before the
    test for unconsumed tokens is reached.  The parse neither succeeds
    nor reports an unrecognized argument. *)
Theorem unknown_token_fails (p : CliParser) :
  (forall h, h ∈ handlers p -> scan h ["--unknown"] 0 [] = Some NoClaim) ->
  parse p ["--unknown"] = Some (Thrown "match error: nothing was consumed").
Proof.
  intros Hnone. unfold parse.
  change (expand_flags ["--unknown"]) with ["--unknown"].
  unfold doScan. rewrite scanargs_eq. simpl.
  rewrite pass_none; [reflexivity|].
  intros h Hin. rewrite acc_of_init by exact Hin. now apply Hnone.
Qed.

Lemma unknown_token_fails_witness :
  (forall h, h ∈ handlers Ex.verbose -> scan h ["--unknown"] 0 [] = Some NoClaim)
  /\ parse Ex.verbose ["--unknown"]
     = Some (Thrown "match error: nothing was consumed").
Proof.
  assert (Hnone : forall h, h ∈ handlers Ex.verbose ->
                            scan h ["--unknown"] 0 [] = Some NoClaim).
  { intros h Hin. apply list_elem_of_singleton in Hin. rewrite Hin. reflexivity. }
  split; [exact Hnone | exact (unknown_token_fails Ex.verbose Hnone)].
Defined.

(** C3, as the specification states it, fails: no handler of
    [optparser(flag("-v").as("v"))] matches ["--unknown"], and the
    parse does not end in the unrecognized-argument condition. *)
Lemma unknown_token_not_unrecognized :
  (forall h, h ∈ handlers Ex.verbose -> scan h ["--unknown"] 0 [] = Some NoClaim)
  /\ parse Ex.verbose ["--unknown"] <> Some (Unrecognized (Some "--unknown")).
Proof.
  split.
  - intros h Hin. apply list_elem_of_singleton in Hin. rewrite Hin. reflexivity.
  - vm_compute. discriminate.
Qed.

(** C1 at a failing input.  With the flag declared after the two
    positionals, [parse(["-v","x","y"])] lets [arg("a")] claim the
    flag's token ["-v"] and [arg("b")] claim ["x"]; the flag claims
    nothing and ["y"] is reported as an unrecognized argument.  With
    the flag declared first, the same input binds [a] to ["x"] and
    [b] to ["y"]. *)
Theorem positional_claims_flag_token :
  (exists m,
      doScan Ex.args_then_flag ["-v"; "x"; "y"] 0 = Some (ScanOk 2 m)
      /\ m !! 1 = Some [plain ["-v"]]
      /\ m !! 2 = Some [plain ["x"]]
      /\ m !! 3 = Some [])
  /\ parse Ex.args_then_flag ["-v"; "x"; "y"] = Some (Unrecognized (Some "y"))
  /\ parse Ex.flag_then_args ["-v"; "x"; "y"]
     = Some (Parsed (VObj (<["v" := VBool true]>
                             (<["a" := VStr "x"]> (<["b" := VStr "y"]> ∅))))).
Proof.
  split; [|split; vm_compute; reflexivity].
  eexists. split; [vm_compute; reflexivity|].
  repeat split; vm_compute; reflexivity.
Qed.

(** C2 at a failing input.  On [["p","q"]], the handler
    [oneof(optparser(arg("x"))).as("k")] claims ["p"] at position 0
    and ["q"] at position 1; its value closure receives both groups
    and throws. *)
Theorem oneof_claims_twice :
  (exists m g1 g2,
      doScan Ex.one_alternative ["p"; "q"] 0 = Some (ScanOk 2 m)
      /\ m !! 1 = Some [g1; g2]
      /\ toks g1 = ["p"] /\ toks g2 = ["q"])
  /\ BuiltHandlers (handlers Ex.one_alternative)
  /\ parse Ex.one_alternative ["p"; "q"] = Some (Thrown "?!").
Proof.
  split; [|split; [|vm_compute; reflexivity]].
  - do 3 eexists. split; [vm_compute; reflexivity|].
    split; [vm_compute; reflexivity|]. split; reflexivity.
  - repeat constructor.
Qed.

Lemma scan_run_invariants_witness :
  Forall scan_ok (handlers Ex.flag_then_args)
  /\ 0 <= length ["x"; "-v"; "y"]
  /\ exists out, doScan Ex.flag_then_args ["x"; "-v"; "y"] 0 = Some out.
Proof.
  assert (Hb : Forall scan_ok (handlers Ex.flag_then_args))
    by (apply Built_scan_ok; repeat constructor).
  assert (Hle : 0 <= length ["x"; "-v"; "y"]) by apply Nat.le_0_l.
  split; [exact Hb | split; [exact Hle|]].
  destruct (scan_run_invariants Ex.flag_then_args ["x"; "-v"; "y"] 0 Hb Hle)
    as (_ & out & Hout & _).
  exists out. exact Hout.
Defined.

Lemma nothing_consumed_exactly_witness :
  BuiltHandlers (handlers Ex.verbose)
  /\ 0 <= length ["-v"; "x"]
  /\ exists r, scanargs (length ["-v"; "x"] - 0) (handlers Ex.verbose)
                 ["-v"; "x"] 0 (init_mapres (handlers Ex.verbose)) = Some r.
Proof.
  assert (Hb : BuiltHandlers (handlers Ex.verbose)) by repeat constructor.
  assert (Hle : 0 <= length ["-v"; "x"]) by apply Nat.le_0_l.
  split; [exact Hb | split; [exact Hle|]].
  destruct (nothing_consumed_exactly Ex.verbose ["-v"; "x"] 0 Hb Hle)
    as (r & Hr & _).
  exists r. exact Hr.
Defined.

End Parses.

(** ** Two positionals declared after the flags *)

Section FlagsFirst.

Variable fs : list (nat * list string * string).
Variables ia ib : nat.
Variables ka kb x y : string.

Hypothesis ids_differ : ia <> ib.
Hypothesis flag_ids : forall s, s ∈ fs -> s.1.1 <> ia /\ s.1.1 <> ib.
Hypothesis x_plain : ~ activates fs x.
Hypothesis y_plain : ~ activates fs y.

#[local] Abbreviation hs := (flags_first fs ia ib ka kb).

Lemma pass_flag_claims (fs' : list (nat * list string * string)) rest args pos m t :
  args !! pos = Some t -> activates fs' t ->
  exists s, s ∈ fs'
    /\ pass (map flag_of fs' ++ rest) args pos m
       = Some (PassClaim (flag_of s) (plain [t])).
Proof.
  intros Ht. induction fs' as [|s0 fs' IH]; intros (s & Hin & Hact).
  - inversion Hin.
  - simpl. rewrite Ht.
    destruct (includes (effective s0.1.2 s0.2) (Some t)) eqn:Hinc.
    + exists s0. split; [apply list_elem_of_here | reflexivity].
    + apply elem_of_cons in Hin as [->|Hin].
      * apply includes_elem_of in Hact. congruence.
      * destruct IH as (s' & Hin' & Hpass); [now exists s|].
        exists s'. split; [now apply list_elem_of_further | exact Hpass].
Qed.

Lemma pass_flags_decline (fs' : list (nat * list string * string)) rest args pos m t :
  args !! pos = Some t -> ~ activates fs' t ->
  pass (map flag_of fs' ++ rest) args pos m = pass rest args pos m.
Proof.
  intros Ht. induction fs' as [|s0 fs' IH]; intros Hnot; [reflexivity|].
  simpl. rewrite Ht.
  destruct (includes (effective s0.1.2 s0.2) (Some t)) eqn:Hinc.
  - exfalso. apply Hnot. exists s0. split; [apply list_elem_of_here|].
    now apply includes_elem_of.
  - apply IH. intros (s & Hin & Hact). apply Hnot. exists s.
    split; [now apply list_elem_of_further | exact Hact].
Qed.

Lemma arg_guard_open (args : list string) pos t :
  args !! pos = Some t ->
  (Z.of_nat (length args) - 1 <? Z.of_nat pos)%Z = false.
Proof. intros Ht. apply lookup_lt_Some in Ht. apply Z.ltb_ge. lia. Qed.

(** From any point of the input on, the loop consumes every remaining
    token and leaves the two positional tokens in the accumulators of
    the two positionals. *)
Lemma scanargs_remaining seen rest :
  remaining fs x y seen rest ->
  forall pre m fuel,
    bound ia ib x y seen m -> length rest <= fuel ->
    exists m',
      scanargs fuel hs (pre ++ rest) (length pre) m
      = Some (Ended (length (pre ++ rest)) m')
      /\ bound ia ib x y 2 m'.
Proof.
  induction 1 as [|seen t rest Hact _ IH|rest _ IH|rest _ IH];
    intros pre m fuel [Ha Hb] Hfuel; rewrite scanargs_eq.
  - rewrite app_nil_r, Nat.ltb_irrefl. exists m. now split.
  - assert (Ht : (pre ++ t :: rest) !! length pre = Some t)
      by apply list_lookup_middle, eq_refl.
    pose proof (lookup_lt_Some _ _ _ Ht) as Hlt. apply Nat.ltb_lt in Hlt.
    rewrite Hlt. destruct fuel as [|fuel]; [simpl in Hfuel; lia|].
    destruct (pass_flag_claims fs (positionals ia ib ka kb) _ _ m t Ht Hact)
      as (s & Hin & Hpass).
    unfold flags_first. rewrite Hpass.
    destruct (flag_ids s Hin) as [Hia Hib].
    destruct (IH (pre ++ [t]) (<[hid (flag_of s) := acc_of m (flag_of s) ++ [plain [t]]]> m) fuel)
      as (m' & Hrun & Hm').
    { split; rewrite lookup_insert_ne; assumption. }
    { simpl in Hfuel. lia. }
    exists m'. split; [|exact Hm'].
    rewrite <- app_assoc, length_app in Hrun. exact Hrun.
  - assert (Ht : (pre ++ x :: rest) !! length pre = Some x)
      by apply list_lookup_middle, eq_refl.
    pose proof (lookup_lt_Some _ _ _ Ht) as Hlt. apply Nat.ltb_lt in Hlt.
    rewrite Hlt. destruct fuel as [|fuel]; [simpl in Hfuel; lia|].
    unfold flags_first.
    rewrite (pass_flags_decline fs (positionals ia ib ka kb) _ _ m x Ht x_plain).
    simpl in Ha, Hb. simpl. unfold acc_of at 1. simpl. rewrite Ha. simpl.
    rewrite (arg_guard_open _ _ _ Ht), Ht.
    destruct (IH (pre ++ [x]) (<[ia := acc_of m (arg ia ka) ++ [plain [x]]]> m) fuel)
      as (m' & Hrun & Hm').
    { unfold acc_of. simpl. rewrite Ha. split;
        [now rewrite lookup_insert_eq | now rewrite lookup_insert_ne]. }
    { simpl in Hfuel. lia. }
    exists m'. split; [|exact Hm'].
    rewrite <- app_assoc, length_app in Hrun. exact Hrun.
  - assert (Ht : (pre ++ y :: rest) !! length pre = Some y)
      by apply list_lookup_middle, eq_refl.
    pose proof (lookup_lt_Some _ _ _ Ht) as Hlt. apply Nat.ltb_lt in Hlt.
    rewrite Hlt. destruct fuel as [|fuel]; [simpl in Hfuel; lia|].
    unfold flags_first.
    rewrite (pass_flags_decline fs (positionals ia ib ka kb) _ _ m y Ht y_plain).
    simpl in Ha, Hb. simpl. unfold acc_of at 1. simpl. rewrite Ha. simpl.
    unfold acc_of at 1. simpl. rewrite Hb. simpl.
    rewrite (arg_guard_open _ _ _ Ht), Ht.
    destruct (IH (pre ++ [y]) (<[ib := acc_of m (arg ib kb) ++ [plain [y]]]> m) fuel)
      as (m' & Hrun & Hm').
    { unfold acc_of. simpl. rewrite Hb. split;
        [rewrite lookup_insert_ne by congruence; exact Ha
        | now rewrite lookup_insert_eq]. }
    { simpl in Hfuel. lia. }
    exists m'. split; [|exact Hm'].
    rewrite <- app_assoc, length_app in Hrun. exact Hrun.
Qed.

Lemma handlers_optparser (l : list Handler) :
  handlers (optparser (map inl l)) = l.
Proof.
  unfold optparser, add_handler. simpl.
  enough (Hfold : forall (acc : list Handler),
             fold_left (fun hs' (h : Handler + CliParser) =>
                          match h with
                          | inl h => hs' ++ [h]
                          | inr p => hs' ++ handlers p
                          end) (map inl l) acc = acc ++ l) by apply Hfold.
  induction l as [|h l IH]; intros acc; simpl.
  - now rewrite app_nil_r.
  - rewrite IH, <- app_assoc. reflexivity.
Qed.

(** X22. With every flag declared before [arg(ka)] and [arg(kb)], and an
    input that interleaves the tokens [x] and [y], in that order, with
    activator tokens of the flags, the scan consumes the whole input
    and the two positionals extract [x] and [y]. *)
Lemma flags_first_positionals_in_order (args : list string) :
  remaining fs x y 0 args ->
  exists m,
    doScan (optparser (map inl hs)) args 0 = Some (ScanOk (length args) m)
    /\ value (arg ia ka) (acc_of m (arg ia ka)) = Val (VStr x)
    /\ value (arg ib kb) (acc_of m (arg ib kb)) = Val (VStr y).
Proof.
  intros Hrem. unfold doScan. rewrite handlers_optparser, Nat.sub_0_r.
  destruct (scanargs_remaining 0 args Hrem [] (init_mapres hs) (length args))
    as (m & Hrun & Ha & Hb).
  - split; apply init_mapres_fold; left.
    + exists (arg ia ka). split; [|reflexivity].
      apply elem_of_app. right. apply list_elem_of_here.
    + exists (arg ib kb). split; [|reflexivity].
      apply elem_of_app. right. apply list_elem_of_further, list_elem_of_here.
  - apply Nat.le_refl.
  - simpl in Hrun. rewrite Hrun, Nat.ltb_irrefl, andb_false_r.
    exists m. split; [reflexivity|]. unfold acc_of. simpl in Ha, Hb |- *.
    now rewrite Ha, Hb.
Qed.

End FlagsFirst.

(** ** Worked examples *)

Section Examples.

(** The first alternative fails, the second matches [["lit"]]: the
    value under ["k"] is the second alternative's extraction. *)
Example oneof_second_alternative :
  parse Ex.two_alternatives ["lit"]
  = Some (Parsed (VObj (<["k" := VObj (<["l" := VStr "lit"]> ∅)]> ∅))).
Proof. vm_compute. reflexivity. Qed.

(** With no alternative matching, the messages are joined. *)
Example oneof_no_alternative :
  parse Ex.two_alternatives ["nope"]
  = Some (Thrown ("match error: " +:+ expected "other" +:+ ", " +:+ expected "lit")).
Proof. vm_compute. reflexivity. Qed.

(** A token left over after a claimed one is an unrecognized argument. *)
Example leftover_is_unrecognized :
  parse Ex.verbose ["-v"; "--unknown"] = Some (Unrecognized (Some "--unknown")).
Proof. vm_compute. reflexivity. Qed.

(** A failure that [oneof] builds from the failure of its only
    alternative has that alternative's message; it leaves the loop of
    the enclosing scan through [return res], here after the position
    has moved. *)
Example alternative_stalls :
  scanargs 2 (handlers Ex.flag_then_alternative) ["-v"; "x"] 0
    (init_mapres (handlers Ex.flag_then_alternative))
  = Some (Aborted nothing_was_consumed)
  /\ doScan Ex.flag_then_alternative ["-v"; "x"] 0
     = Some (ScanFail nothing_was_consumed).
Proof. split; vm_compute; reflexivity. Qed.

(** A flag seen twice fails at extraction. *)
Example flag_twice :
  parse Ex.verbose ["-v"; "-v"]
  = Some (Thrown ("match error: " +:+ only_once ["-v"])).
Proof. vm_compute. reflexivity. Qed.

Lemma flags_first_positionals_in_order_witness :
  1 <> 2
  /\ (forall s, s ∈ [(3, ["-v"], "v")] -> s.1.1 <> 1 /\ s.1.1 <> 2)
  /\ ~ activates [(3, ["-v"], "v")] "x"
  /\ ~ activates [(3, ["-v"], "v")] "y"
  /\ remaining [(3, ["-v"], "v")] "x" "y" 0 ["x"; "-v"; "y"]
  /\ exists m,
       doScan (optparser (map inl (flags_first [(3, ["-v"], "v")] 1 2 "a" "b")))
         ["x"; "-v"; "y"] 0
       = Some (ScanOk (length ["x"; "-v"; "y"]) m)
       /\ value (arg 1 "a") (acc_of m (arg 1 "a")) = Val (VStr "x")
       /\ value (arg 2 "b") (acc_of m (arg 2 "b")) = Val (VStr "y").
Proof.
  assert (Hplain : forall t, t <> "-v" -> ~ activates [(3, ["-v"], "v")] t).
  { intros t Ht (s & Hin & Hact). apply list_elem_of_singleton in Hin. subst s.
    apply list_elem_of_singleton in Hact. contradiction. }
  assert (H1 : 1 <> 2) by discriminate.
  assert (H2 : forall s, s ∈ [(3, ["-v"], "v")] -> s.1.1 <> 1 /\ s.1.1 <> 2).
  { intros s Hin. apply list_elem_of_singleton in Hin. subst s. split; discriminate. }
  assert (Hx : ~ activates [(3, ["-v"], "v")] "x") by (apply Hplain; discriminate).
  assert (Hy : ~ activates [(3, ["-v"], "v")] "y") by (apply Hplain; discriminate).
  assert (Hrem : remaining [(3, ["-v"], "v")] "x" "y" 0 ["x"; "-v"; "y"]).
  { apply remaining_first, remaining_flag, remaining_second, remaining_end.
    exists (3, ["-v"], "v"). split; apply list_elem_of_here. }
  repeat (split; [assumption|]).
  exact (flags_first_positionals_in_order [(3, ["-v"], "v")] 1 2 "a" "b" "x" "y"
           H1 H2 Hx Hy ["x"; "-v"; "y"] Hrem).
Defined.

End Examples.

(** * Further properties of the module *)

(** ** One turn of the scanning loop *)

Section LoopSteps.

Lemma scanargs_claims fuel hs args pos m h g :
  pos < length args ->
  pass hs args pos m = Some (PassClaim h g) ->
  scanargs (S fuel) hs args pos m
  = scanargs fuel hs args (pos + length (toks g))
      (<[hid h := acc_of m h ++ [g]]> m).
Proof.
  intros Hlt Hpass. rewrite scanargs_eq, Hpass.
  apply Nat.ltb_lt in Hlt. now rewrite Hlt.
Qed.

Lemma scanargs_stalls fuel hs args pos m :
  pos < length args ->
  pass hs args pos m = Some PassNone ->
  scanargs (S fuel) hs args pos m = Some (Ended pos m).
Proof.
  intros Hlt Hpass. rewrite scanargs_eq, Hpass.
  apply Nat.ltb_lt in Hlt. now rewrite Hlt.
Qed.

Lemma scanargs_aborts fuel hs args pos m e :
  pos < length args ->
  pass hs args pos m = Some (PassErr e) ->
  scanargs (S fuel) hs args pos m = Some (Aborted e).
Proof.
  intros Hlt Hpass. rewrite scanargs_eq, Hpass.
  apply Nat.ltb_lt in Hlt. now rewrite Hlt.
Qed.

Lemma scanargs_at_end fuel hs args pos m :
  length args <= pos ->
  scanargs fuel hs args pos m = Some (Ended pos m).
Proof.
  intros Hge. rewrite scanargs_eq.
  destruct (Nat.ltb_spec pos (length args)); [lia | reflexivity].
Qed.

Lemma acc_of_insert (m : gmap nat (list group)) h acc :
  acc_of (<[hid h := acc]> m) h = acc.
Proof. unfold acc_of. now rewrite lookup_insert_eq. Qed.

Lemma pass_app hs1 hs2 args pos m :
  pass (hs1 ++ hs2) args pos m =
  match pass hs1 args pos m with
  | Some PassNone => pass hs2 args pos m
  | r => r
  end.
Proof.
  induction hs1 as [|h hs1 IH]; simpl; [reflexivity|].
  destruct (scan h args pos (acc_of m h)) as [[g| |e]|]; try reflexivity.
  exact IH.
Qed.


End LoopSteps.

(** ** The primitives, one by one *)

Section MorePrimitives.

(** X1. [flag(activators).as(key)]: the scan claims exactly the token at
    the position when it is an activator and declines otherwise,
    whatever was claimed before; the value is [false] for no group,
    [true] for one group and a failure for more. *)
Theorem flag_scan_and_value (oid : nat) (activators : list string) (key : string)
  (args : list string) (pos : nat) (acc : list group) :
  let h := flag oid activators key in
  let acts := effective activators key in
  (forall t, args !! pos = Some t -> t ∈ acts ->
             scan h args pos acc = Some (Claim (plain [t])))
  /\ ((~ exists t, args !! pos = Some t /\ t ∈ acts) ->
      scan h args pos acc = Some NoClaim)
  /\ value h [] = Val (VBool false)
  /\ (forall g, value h [g] = Val (VBool true))
  /\ (forall gs, 1 < length gs -> value h gs = MatchErr (only_once acts)).
Proof.
  intros h acts. subst h acts. repeat split.
  - intros t Ht Hin. apply includes_elem_of in Hin.
    cbn [scan flag]. rewrite Ht, Hin. reflexivity.
  - intros Hnot. cbn [scan flag]. destruct (args !! pos) as [t|] eqn:Ht.
    + destruct (includes (effective activators key) (Some t)) eqn:Hinc;
        [|reflexivity].
      exfalso. apply Hnot. exists t. split; [reflexivity|].
      now apply includes_elem_of.
    + reflexivity.
  - intros gs Hlen. cbn [value flag]. apply Nat.ltb_lt in Hlen. now rewrite Hlen.
Qed.

End MorePrimitives.

(** ** Parsers with a single handler *)

Section SingleHandler.

Lemma pass_single h args pos m :
  pass [h] args pos m =
  match scan h args pos (acc_of m h) with
  | None => None
  | Some (ScanErr e) => Some (PassErr e)
  | Some NoClaim => Some PassNone
  | Some (Claim res) => Some (PassClaim h res)
  end.
Proof. reflexivity. Qed.

Lemma doValues_single h (m : gmap nat (list group)) :
  doValues (optparser [inl h]) m =
  match value h (acc_of m h) with
  | MatchErr e => MatchErr e
  | Throw e => Throw e
  | Val r => Val (VObj (set_property (key (opts h)) r ∅))
  end.
Proof. unfold doValues. simpl. now destruct (value h (acc_of m h)). Qed.

Lemma arg_scan_first oid key (args : list string) pos t :
  args !! pos = Some t ->
  scan (arg oid key) args pos [] = Some (Claim (plain [t])).
Proof.
  intros Ht. cbn [scan arg]. rewrite Ht.
  pose proof (lookup_lt_Some _ _ _ Ht) as Hlt.
  destruct (Z.ltb_spec (Z.of_nat (length args) - 1) (Z.of_nat pos)); [lia|].
  reflexivity.
Qed.

Lemma arg_scan_again oid key (args : list string) pos g acc :
  scan (arg oid key) args pos (g :: acc) = Some NoClaim.
Proof. reflexivity. Qed.

#[local] Ltac arith :=
  cbn [Nat.eqb Nat.ltb Nat.leb Nat.add Nat.sub length andb negb toks plain].

(** X2. A parser whose only handler is [arg(key)], with a key other
    than ["__proto__"], is decided by the normalised input: no token
    leaves the key undefined, one token is bound to the key whatever it
    looks like (a token beginning with ["-"] included), and with more
    tokens the second one is reported as an unrecognized argument. *)
Theorem arg_alone (oid : nat) (key : string) (args : list string) :
  key <> "__proto__" ->
  parse (optparser [inl (arg oid key)]) args =
  match expand_flags args with
  | [] => Some (Parsed (VObj (<[key := VUndef]> ∅)))
  | [t] => Some (Parsed (VObj (<[key := VStr t]> ∅)))
  | _ :: u :: _ => Some (Unrecognized (Some u))
  end.
Proof.
  intros Hkey. unfold parse. set (h := arg oid key).
  destruct (expand_flags args) as [|t [|u rest]]; unfold doScan;
    change (handlers (optparser [inl h])) with [h];
    change (init_mapres [h]) with (<[hid h := []]> (∅ : gmap nat (list group))).
  - rewrite scanargs_at_end by (simpl; lia). arith.
    rewrite doValues_single, acc_of_insert.
    rewrite <- (set_property_ne key _ _ Hkey). reflexivity.
  - rewrite (scanargs_claims 0 [h] [t] 0 _ h (plain [t]));
      [|simpl; lia|rewrite pass_single, acc_of_insert; reflexivity].
    rewrite scanargs_at_end by (simpl; lia). arith.
    rewrite doValues_single, !acc_of_insert.
    rewrite <- (set_property_ne key _ _ Hkey). reflexivity.
  - arith.
    rewrite (scanargs_claims _ [h] _ 0 _ h (plain [t]));
      [|simpl; lia
       |rewrite pass_single, acc_of_insert; unfold h;
        now rewrite (arg_scan_first oid key _ 0 t)].
    rewrite scanargs_stalls;
      [|simpl; lia|rewrite pass_single, !acc_of_insert; reflexivity].
    reflexivity.
Qed.

Lemma arg_alone_witness :
  "file" <> "__proto__"
  /\ parse (optparser [inl (arg 1 "file")]) ["-x"]
     = Some (Parsed (VObj (<["file" := VStr "-x"]> ∅))).
Proof.
  assert (Hkey : "file" <> "__proto__") by discriminate.
  split; [exact Hkey | exact (arg_alone 1 "file" ["-x"] Hkey)].
Defined.

(** X3. A parser whose only handler is [expect(literal).as(key)], with
    a key other than ["__proto__"]: on
    the empty input and on the input made of the literal alone, the
    key is bound to the literal; a first token that differs is a fatal
    "expected" error; a token after the literal is reported as an
    unrecognized argument, also when it is the literal again. *)
Theorem expect_alone (oid : nat) (literal key : string) (args : list string) :
  key <> "__proto__" ->
  parse (optparser [inl (expect oid literal key)]) args =
  match expand_flags args with
  | [] => Some (Parsed (VObj (<[key := VStr literal]> ∅)))
  | t :: rest =>
      if String.eqb t literal then
        match rest with
        | [] => Some (Parsed (VObj (<[key := VStr literal]> ∅)))
        | u :: _ => Some (Unrecognized (Some u))
        end
      else Some (Thrown ("match error: " +:+ expected literal))
  end.
Proof.
  intros Hkey. unfold parse. set (h := expect oid literal key).
  destruct (expand_flags args) as [|t rest];
    [rewrite <- (set_property_ne key _ _ Hkey); reflexivity|].
  unfold doScan;
    change (handlers (optparser [inl h])) with [h];
    change (init_mapres [h]) with (<[hid h := []]> (∅ : gmap nat (list group))).
  arith. destruct (String.eqb t literal) eqn:Ht.
  - rewrite (scanargs_claims _ [h] _ 0 _ h (plain [t]));
      [|simpl; lia
       |rewrite pass_single, acc_of_insert; cbn [scan h expect]; simpl;
        rewrite Ht; reflexivity].
    destruct rest as [|u rest].
    + rewrite scanargs_at_end by (simpl; lia).
      rewrite <- (set_property_ne key _ _ Hkey). reflexivity.
    + arith. rewrite scanargs_stalls;
        [|simpl; lia|rewrite pass_single, !acc_of_insert; reflexivity].
      reflexivity.
  - rewrite (scanargs_aborts _ [h] _ 0 _ (expected literal));
      [|simpl; lia
       |rewrite pass_single, acc_of_insert; cbn [scan h expect]; simpl;
        rewrite Ht; reflexivity].
    reflexivity.
Qed.

Lemma expect_alone_witness :
  "cmd" <> "__proto__"
  /\ parse (optparser [inl (expect 1 "run" "cmd")]) ["run"; "run"]
     = Some (Unrecognized (Some "run")).
Proof.
  assert (Hkey : "cmd" <> "__proto__") by discriminate.
  split; [exact Hkey | exact (expect_alone 1 "run" "cmd" ["run"; "run"] Hkey)].
Defined.

End SingleHandler.

(** ** A lone flag, and a repeated positional *)

Section Runs.

#[local] Ltac arith :=
  cbn [Nat.eqb Nat.ltb Nat.leb Nat.add Nat.sub length andb negb toks plain].

Lemma leading_le acts toks : leading acts toks <= length toks.
Proof.
  induction toks as [|t toks IH]; simpl; [lia|].
  destruct (existsb (String.eqb t) acts); simpl; lia.
Qed.

Lemma flag_run oid acts key (rest : list string) :
  let h := flag oid acts key in
  forall pre m fuel,
    length rest <= fuel ->
    exists m',
      scanargs fuel [h] (pre ++ rest) (length pre) m
      = Some (Ended (length pre + leading (effective acts key) rest) m')
      /\ acc_of m' h
         = acc_of m h ++ map single (take (leading (effective acts key) rest) rest).
Proof.
  intros h. induction rest as [|t rest IH]; intros pre m fuel Hfuel.
  - exists m. rewrite scanargs_at_end by (rewrite app_nil_r; lia).
    cbn [leading take map]. now rewrite Nat.add_0_r, app_nil_r.
  - assert (Ht : (pre ++ t :: rest) !! length pre = Some t)
      by apply list_lookup_middle, eq_refl.
    pose proof (lookup_lt_Some _ _ _ Ht) as Hlt.
    destruct fuel as [|fuel]; [simpl in Hfuel; lia|].
    cbn [leading]. destruct (includes (effective acts key) (Some t)) eqn:Hinc.
    + rewrite (scanargs_claims _ _ _ _ _ h (single t) Hlt);
        [|rewrite pass_single; cbn [scan h flag]; now rewrite Ht, Hinc].
      destruct (IH (pre ++ [t]) (<[hid h := acc_of m h ++ [single t]]> m) fuel)
        as (m' & Hrun & Hacc); [simpl in Hfuel; lia|].
      exists m'. rewrite <- app_assoc, length_app in Hrun. cbn [length app] in Hrun.
      rewrite acc_of_insert in Hacc. split.
      * cbn [toks single plain length]. rewrite Hrun. do 2 f_equal. lia.
      * rewrite Hacc, <- app_assoc. reflexivity.
    + exists m. rewrite scanargs_stalls;
        [|exact Hlt|rewrite pass_single; cbn [scan h flag]; now rewrite Ht, Hinc].
      cbn [take map]. now rewrite Nat.add_0_r, app_nil_r.
Qed.

(** X4. A parser whose only handler is a flag, with a key other than
    ["__proto__"], on any input: with [n]
    the number of leading tokens of the normalised input that are
    activators, a token after them is reported as unrecognized (or, when
    [n] is zero, the parse fails with "nothing was consumed"); when
    every token is an activator the key is [false] for none, [true] for
    one, and the parse fails with "can only appear once" for more. *)
Theorem flag_alone (oid : nat) (acts : list string) (key : string)
  (args : list string) :
  key <> "__proto__" ->
  parse (optparser [inl (flag oid acts key)]) args =
  let toks := expand_flags args in
  let n := leading (effective acts key) toks in
  if n <? length toks then
    if n =? 0 then Some (Thrown "match error: nothing was consumed")
    else Some (Unrecognized (toks !! n))
  else match n with
       | 0 => Some (Parsed (VObj (<[key := VBool false]> ∅)))
       | 1 => Some (Parsed (VObj (<[key := VBool true]> ∅)))
       | _ => Some (Thrown ("match error: " +:+ only_once (effective acts key)))
       end.
Proof.
  intros Hkey.
  unfold parse. set (h := flag oid acts key). set (toks := expand_flags args).
  cbv zeta. unfold doScan.
  change (handlers (optparser [inl h])) with [h].
  change (init_mapres [h]) with (<[hid h := []]> (∅ : gmap nat (list group))).
  destruct (flag_run oid acts key toks [] (<[hid h := []]> ∅) (length toks - 0))
    as (m' & Hrun & Hacc); [lia|].
  fold h in Hrun, Hacc. rewrite acc_of_insert in Hacc.
  cbn [app length Nat.add] in Hrun, Hacc. rewrite Hrun.
  pose proof (leading_le (effective acts key) toks) as Hle.
  set (n := leading (effective acts key) toks) in *.
  destruct (Nat.ltb_spec n (length toks)) as [Hlt|Hge].
  - destruct (Nat.eqb_spec n 0) as [Hz|Hnz]; [reflexivity|].
    cbn [andb]. destruct (Nat.eqb_spec n (length toks)); [lia | reflexivity].
  - rewrite andb_false_r. assert (Hn : n = length toks) by lia.
    rewrite <- Hn, Nat.eqb_refl. cbn [negb].
    rewrite doValues_single, Hacc. cbn [value h flag].
    rewrite length_map, length_take, <- Hn, Nat.min_id.
    destruct n as [|[|n]]; rewrite <- ?(set_property_ne key _ _ Hkey);
      reflexivity.
Qed.

Lemma flag_alone_witness :
  "v" <> "__proto__"
  /\ parse (optparser [inl (flag 1 ["-v"] "v")]) ["-vv"]
     = Some (Thrown ("match error: " +:+ only_once ["-v"])).
Proof.
  assert (Hkey : "v" <> "__proto__") by discriminate.
  split; [exact Hkey | exact (flag_alone 1 ["-v"] "v" ["-vv"] Hkey)].
Defined.

Lemma repeat_scan_eq oid this args pos acc :
  scan (H.repeat oid this) args pos acc = scan this args pos [].
Proof. reflexivity. Qed.

Lemma repeat_value_eq oid this strs :
  value (H.repeat oid this) strs = H.repeat_loop this strs [].
Proof. reflexivity. Qed.

Lemma repeat_arg_run o1 o2 key (rest : list string) :
  let h := H.repeat o2 (arg o1 key) in
  forall pre m fuel,
    length rest <= fuel ->
    exists m',
      scanargs fuel [h] (pre ++ rest) (length pre) m
      = Some (Ended (length (pre ++ rest)) m')
      /\ acc_of m' h = acc_of m h ++ map single rest.
Proof.
  intros h. induction rest as [|t rest IH]; intros pre m fuel Hfuel.
  - exists m. rewrite scanargs_at_end by (rewrite app_nil_r; lia).
    now rewrite !app_nil_r.
  - assert (Ht : (pre ++ t :: rest) !! length pre = Some t)
      by apply list_lookup_middle, eq_refl.
    pose proof (lookup_lt_Some _ _ _ Ht) as Hlt.
    destruct fuel as [|fuel]; [simpl in Hfuel; lia|].
    rewrite (scanargs_claims _ _ _ _ _ h (single t) Hlt);
      [|rewrite pass_single; unfold h;
        now rewrite repeat_scan_eq, (arg_scan_first o1 key _ _ t Ht)].
    destruct (IH (pre ++ [t]) (<[hid h := acc_of m h ++ [single t]]> m) fuel)
      as (m' & Hrun & Hacc); [simpl in Hfuel; lia|].
    exists m'. rewrite <- app_assoc, length_app in Hrun. cbn [length app] in Hrun.
    rewrite acc_of_insert in Hacc. split.
    + cbn [toks single plain length]. exact Hrun.
    + rewrite Hacc, <- app_assoc. reflexivity.
Qed.

Lemma repeat_arg_value o1 key (l : list string) : forall res,
  H.repeat_loop (arg o1 key) (map single l) res = Val (VArr (res ++ map VStr l)).
Proof.
  induction l as [|t l IH]; intros res; simpl.
  - now rewrite app_nil_r.
  - rewrite IH, <- app_assoc. reflexivity.
Qed.

(** X5. [arg(key).repeat()] gathers the whole input: the repeated scan
    never sees what was claimed before, so the positional claims every
    token, and the parse binds the key, when it is not ["__proto__"],
    to the sequence of all the tokens of the normalised input, in
    order. *)
Theorem repeat_arg_collects (o1 o2 : nat) (key : string) (args : list string) :
  key <> "__proto__" ->
  parse (optparser [inl (H.repeat o2 (arg o1 key))]) args
  = Some (Parsed (VObj (<[key := VArr (map VStr (expand_flags args))]> ∅))).
Proof.
  intros Hkey.
  unfold parse. set (h := H.repeat o2 (arg o1 key)). set (toks := expand_flags args).
  unfold doScan.
  change (handlers (optparser [inl h])) with [h].
  change (init_mapres [h]) with (<[hid h := []]> (∅ : gmap nat (list group))).
  destruct (repeat_arg_run o1 o2 key toks [] (<[hid h := []]> ∅) (length toks - 0))
    as (m' & Hrun & Hacc); [lia|].
  fold h in Hrun, Hacc. rewrite acc_of_insert in Hacc.
  cbn [app length] in Hrun, Hacc. rewrite Hrun.
  rewrite Nat.ltb_irrefl, andb_false_r, Nat.eqb_refl. cbn [negb].
  rewrite doValues_single, Hacc. unfold h.
  rewrite repeat_value_eq, repeat_arg_value.
  rewrite <- (set_property_ne key _ _ Hkey). reflexivity.
Qed.

Lemma repeat_arg_collects_witness :
  "rest" <> "__proto__"
  /\ parse (optparser [inl (H.repeat 2 (arg 1 "rest"))]) ["a"; "-bc"]
     = Some (Parsed (VObj (<["rest" := VArr [VStr "a"; VStr "-b"; VStr "-c"]]> ∅))).
Proof.
  assert (Hkey : "rest" <> "__proto__") by discriminate.
  split; [exact Hkey | exact (repeat_arg_collects 1 2 "rest" ["a"; "-bc"] Hkey)].
Defined.

End Runs.

(** ** A long option given as [--name=value] *)

Section LongOption.

#[local] Ltac arith :=
  cbn [Nat.eqb Nat.ltb Nat.leb Nat.add Nat.sub length andb negb toks plain].

Lemma split_at_eq_app (name v : string) :
  Js.str_includes "=" name = false ->
  NormalizerSpec.split_at_eq (name +:+ String "=" v) = Some (name, v).
Proof.
  induction name as [|c name IH]; intros Hinc; [reflexivity|].
  simpl in *. destruct (Ascii.eqb c "="); [discriminate|].
  now rewrite (IH Hinc).
Qed.

Lemma expand_long (name v : string) :
  Js.str_includes "=" name = false ->
  expand_flags ["--" +:+ name +:+ "=" +:+ v] = ["--" +:+ name; v].
Proof.
  intros Hinc. unfold expand_flags. cbn [fold_left].
  rewrite expand_arg_normalize. unfold NormalizerSpec.normalize_token.
  change ("--" +:+ name +:+ "=" +:+ v)
    with (String "-" (String "-" (name +:+ String "=" v))).
  cbn [NormalizerSpec.starts_with NormalizerSpec.split_at_eq].
  change (Ascii.eqb "-" "-") with true. change (Ascii.eqb "-" "=") with false.
  cbn [andb]. now rewrite (split_at_eq_app name v Hinc).
Qed.

(** X6. A [param] with a key other than ["__proto__"] whose activators
    include ["--name"], given the one
    token ["--name=value"]: the normaliser splits the token and the
    parse binds the key to the value, unless the value begins with
    ["-"].  Such a value is never captured: it is reported as an
    unrecognized argument, or, when it is itself an activator, it is
    claimed as a second occurrence and the parse fails with "can only
    appear once". *)
Theorem param_equals_form (oid : nat) (acts : list string) (key name v : string) :
  key <> "__proto__" ->
  Js.str_includes "=" name = false ->
  ("--" +:+ name) ∈ effective acts key ->
  parse (optparser [inl (param oid acts key)]) ["--" +:+ name +:+ "=" +:+ v] =
  if Js.char_is v 0 "-" then
    if includes (effective acts key) (Some v)
    then Some (Thrown ("match error: " +:+ only_once (effective acts key)))
    else Some (Unrecognized (Some v))
  else Some (Parsed (VObj (<[key := VStr v]> ∅))).
Proof.
  intros Hkey Hname Hact. apply includes_elem_of in Hact.
  unfold parse. rewrite (expand_long name v Hname).
  set (a := "--" +:+ name) in *. set (h := param oid acts key).
  unfold doScan.
  change (handlers (optparser [inl h])) with [h].
  change (init_mapres [h]) with (<[hid h := []]> (∅ : gmap nat (list group))).
  arith.
  assert (Hfirst : pass [h] [a; v] 0 (<[hid h := []]> ∅)
                   = Some (PassClaim h
                       (plain (if Js.char_is v 0 "-" then [a] else [a; v])))).
  { rewrite pass_single. unfold h. rewrite param_scan_eq.
    change ([a; v] !! 0) with (Some a). rewrite Hact.
    change ([a; v] !! (0 + 1)) with (Some v). cbn [not_a_value].
    now destruct (Js.char_is v 0 "-"). }
  rewrite (scanargs_claims _ _ [a; v] _ _ _ _ (Nat.lt_0_succ 1 : 0 < length [a; v]) Hfirst).
  rewrite acc_of_insert. destruct (Js.char_is v 0 "-"); arith.
  - destruct (includes (effective acts key) (Some v)) eqn:Hv.
    + rewrite (scanargs_claims _ _ _ _ _ h (plain [v]));
        [|simpl; lia
         |rewrite pass_single; unfold h; rewrite param_scan_eq;
          change ([a; v] !! 1) with (Some v); now rewrite Hv].
      rewrite scanargs_at_end by (simpl; lia). arith.
      rewrite doValues_single, !acc_of_insert. reflexivity.
    + rewrite scanargs_stalls;
        [|simpl; lia
         |rewrite pass_single; unfold h; rewrite param_scan_eq;
          change ([a; v] !! 1) with (Some v); now rewrite Hv].
      reflexivity.
  - rewrite scanargs_at_end by (simpl; lia). arith.
    rewrite doValues_single, !acc_of_insert.
    rewrite <- (set_property_ne key _ _ Hkey). reflexivity.
Qed.

Lemma param_equals_form_witness :
  "out" <> "__proto__"
  /\ Js.str_includes "=" "out" = false
  /\ ("--" +:+ "out") ∈ effective [] "out"
  /\ parse (optparser [inl (param 1 [] "out")]) ["--out=file.txt"]
     = Some (Parsed (VObj (<["out" := VStr "file.txt"]> ∅))).
Proof.
  assert (H0 : "out" <> "__proto__") by discriminate.
  assert (H1 : Js.str_includes "=" "out" = false) by reflexivity.
  assert (H2 : ("--" +:+ "out") ∈ effective [] "out") by apply list_elem_of_here.
  split; [exact H0 | split; [exact H1 | split; [exact H2|]]].
  exact (param_equals_form 1 [] "out" "out" "file.txt" H0 H1 H2).
Defined.

End LongOption.

(** ** Extraction: [doValues] *)

Section Extraction.




End Extraction.

(** ** What a finished parse says about the input *)

Section Outcomes.

Lemma slice_all {A} (l : list A) : Js.slice l 0 (length l) = l.
Proof. unfold Js.slice. rewrite drop_0, Nat.sub_0_r. now apply take_ge. Qed.

Lemma slice_glue {A} (l : list A) a b c :
  a <= b -> b <= c -> Js.slice l a b ++ Js.slice l b c = Js.slice l a c.
Proof.
  intros Hab Hbc. unfold Js.slice.
  assert (Hdrop : drop b l = drop (b - a) (drop a l))
    by (rewrite drop_drop; f_equal; lia).
  rewrite Hdrop, take_take_drop. f_equal. lia.
Qed.

Lemma tiles_concat args lo hi tr :
  tiles args lo hi tr ->
  concat (map (fun c => toks (snd c)) tr) = Js.slice args lo hi.
Proof.
  induction 1 as [lo|lo hi id g rest (Hpos & Hend & Hg) Hrest IH]; simpl.
  - unfold Js.slice. now rewrite Nat.sub_diag.
  - rewrite IH, Hg at 1. apply tiles_le in Hrest.
    apply slice_glue; lia.
Qed.

(** X8. When [parse] returns a result for a parser of built handlers,
    the scan consumed the whole normalised input: the groups claimed,
    each by a handler of the parser, laid end to end in claim order,
    are exactly the normalised tokens, and the result is the
    extraction over the accumulators that hold those groups. *)
Theorem parse_success_consumes (p : CliParser) (args : list string) (r : jsval) :
  BuiltHandlers (handlers p) ->
  parse p args = Some (Parsed r) ->
  exists m trace,
    doScan p (expand_flags args) 0 = Some (ScanOk (length (expand_flags args)) m)
    /\ doValues p m = Val r
    /\ concat (map (fun c => toks (snd c)) trace) = expand_flags args
    /\ (forall c, c ∈ trace -> exists h, h ∈ handlers p /\ hid h = fst c)
    /\ (forall h, h ∈ handlers p -> acc_of m h = claimed_by (hid h) trace).
Proof.
  intros Hb Hparse. unfold parse in Hparse.
  destruct (doScan_ok p (expand_flags args) 0 (Built_scan_ok _ Hb)) as (out & Hout & Hspec);
    [lia|].
  rewrite Hout in Hparse. destruct out as [pos m|e]; [|discriminate].
  destruct (Nat.eqb_spec pos (length (expand_flags args))) as [->|Hne];
    [|discriminate].
  cbn [negb] in Hparse.
  destruct (Hspec _ m eq_refl) as (_ & _ & tr & Htiles & Hfrom & Hagree).
  exists m, tr. split; [exact Hout|]. split.
  - destruct (doValues p m); congruence.
  - split; [|split; [exact Hfrom|]].
    + rewrite (tiles_concat _ _ _ _ Htiles). apply slice_all.
    + intros h Hin. unfold acc_of. now rewrite (Hagree h Hin).
Qed.

Lemma parse_success_consumes_witness :
  BuiltHandlers (handlers Ex.flag_then_args)
  /\ parse Ex.flag_then_args ["x"; "-v"; "y"]
     = Some (Parsed (VObj (<["v" := VBool true]>
                             (<["a" := VStr "x"]> (<["b" := VStr "y"]> ∅)))))
  /\ exists m, doScan Ex.flag_then_args (expand_flags ["x"; "-v"; "y"]) 0
               = Some (ScanOk (length (expand_flags ["x"; "-v"; "y"])) m).
Proof.
  assert (Hb : BuiltHandlers (handlers Ex.flag_then_args)) by repeat constructor.
  assert (Hp : parse Ex.flag_then_args ["x"; "-v"; "y"]
               = Some (Parsed (VObj (<["v" := VBool true]>
                                       (<["a" := VStr "x"]> (<["b" := VStr "y"]> ∅))))))
    by (vm_compute; reflexivity).
  split; [exact Hb | split; [exact Hp|]].
  destruct (parse_success_consumes _ _ _ Hb Hp) as (m & _ & Hscan & _).
  exists m. exact Hscan.
Defined.

(** X9. When [parse] reports an unrecognized argument for a parser of
    built handlers, the argument is a token of the normalised input at
    the position where the scan stopped, and that position is not the
    first: at least one token was claimed before it.  An input whose
    first token no handler claims never ends this way. *)
Theorem unrecognized_is_leftover (p : CliParser) (args : list string)
  (a : option string) :
  BuiltHandlers (handlers p) ->
  parse p args = Some (Unrecognized a) ->
  exists pos t m,
    0 < pos < length (expand_flags args)
    /\ a = Some t
    /\ expand_flags args !! pos = Some t
    /\ doScan p (expand_flags args) 0 = Some (ScanOk pos m).
Proof.
  intros Hb Hparse. unfold parse in Hparse.
  destruct (doScan_ok p (expand_flags args) 0 (Built_scan_ok _ Hb)) as (out & Hout & Hspec);
    [lia|].
  rewrite Hout in Hparse. destruct out as [pos m|e]; [|discriminate].
  destruct (Hspec _ m eq_refl) as (Hpos & Hadv & _).
  destruct (Nat.eqb_spec pos (length (expand_flags args))) as [Heq|Hne].
  - cbn [negb] in Hparse. destruct (doValues p m); discriminate.
  - cbn [negb] in Hparse. injection Hparse as <-.
    assert (Hlt : pos < length (expand_flags args)) by lia.
    destruct (lookup_lt_is_Some_2 _ _ Hlt) as [t Ht].
    exists pos, t, m. repeat split; try assumption; lia.
Qed.

Lemma unrecognized_is_leftover_witness :
  BuiltHandlers (handlers Ex.verbose)
  /\ parse Ex.verbose ["-v"; "--unknown"] = Some (Unrecognized (Some "--unknown"))
  /\ exists pos, 0 < pos < length (expand_flags ["-v"; "--unknown"]).
Proof.
  assert (Hb : BuiltHandlers (handlers Ex.verbose)) by repeat constructor.
  assert (Hp : parse Ex.verbose ["-v"; "--unknown"]
               = Some (Unrecognized (Some "--unknown")))
    by (vm_compute; reflexivity).
  split; [exact Hb | split; [exact Hp|]].
  destruct (unrecognized_is_leftover _ _ _ Hb Hp) as (pos & _ & _ & Hpos & _).
  exists pos. exact Hpos.
Defined.

(** X10. On a parser of built handlers [parse] ends, for every input:
    every claimed group holds at least one token, so the scanning loop
    takes at most as many turns as there are tokens left. *)
Theorem parse_ends (p : CliParser) (args : list string) :
  BuiltHandlers (handlers p) ->
  exists outcome, parse p args = Some outcome.
Proof.
  intros Hb. unfold parse.
  destruct (doScan_ok p (expand_flags args) 0 (Built_scan_ok _ Hb))
    as (out & -> & _); [lia|].
  destruct out as [pos m|e]; [|now eexists].
  destruct (negb (pos =? length (expand_flags args))); [now eexists|].
  destruct (doValues p m); now eexists.
Qed.

Lemma parse_ends_witness :
  BuiltHandlers (handlers Ex.one_alternative)
  /\ exists outcome, parse Ex.one_alternative ["p"; "q"] = Some outcome.
Proof.
  assert (Hb : BuiltHandlers (handlers Ex.one_alternative)) by repeat constructor.
  split; [exact Hb | exact (parse_ends Ex.one_alternative ["p"; "q"] Hb)].
Defined.

End Outcomes.

(** ** More on the normaliser *)

Section NormalizerMore.

Lemma normalize_settled (t : string) :
  NormalizerSpec.normalize_token t = [t] <-> settled t = true.
Proof.
  unfold NormalizerSpec.normalize_token, settled.
  destruct (NormalizerSpec.starts_with "--" t) eqn:H2.
  - rewrite split_at_eq_search.
    destruct (Js.str_includes "=" t); cbv zeta; simpl; split;
      try discriminate; reflexivity.
  - destruct (NormalizerSpec.starts_with "-" t) eqn:H1; [|tauto].
    destruct t as [|c [|d t]]; try discriminate.
    + simpl. split; discriminate.
    + simpl in H1, H2 |- *. unfold Js.char_is. simpl.
      rewrite andb_true_r in H1. apply Ascii.eqb_eq in H1. subst c.
      destruct (Ascii.eqb d "=") eqn:Hd; simpl.
      * rewrite andb_false_r. split; [|discriminate].
        intros [= Heq]. apply (f_equal String.length) in Heq. simpl in Heq. lia.
      * rewrite andb_true_r. destruct t as [|e t]; simpl; [tauto|].
        split; [|discriminate]. destruct (Ascii.eqb e "="); discriminate.
Qed.

Lemma settled_dashless (t : string) : ~ begins_with_dash t -> settled t = true.
Proof.
  intros Hnd. unfold settled.
  rewrite <- char_is_prefix2, <- char_is_prefix1.
  destruct (Js.char_is t 0 "-") eqn:Hd; [|reflexivity].
  exfalso. apply Hnd. now apply char_is_dash.
Qed.

(** X11. The tokens the normaliser leaves unchanged are exactly the
    settled ones: tokens that do not begin with ["-"], ["--"] tokens
    without ["="] and two-character ["-c"] tokens with [c] other than
    ["="].  An input made of settled tokens, in particular one without
    any token beginning with ["-"], is returned as it is. *)
Theorem expand_flags_fixed_points :
  (forall t, expand_flags [t] = [t] <-> settled t = true)
  /\ (forall argv, Forall (fun t => settled t = true) argv -> expand_flags argv = argv)
  /\ (forall argv, Forall (fun t => ~ begins_with_dash t) argv ->
                   expand_flags argv = argv).
Proof.
  assert (Hall : forall argv, Forall (fun t => settled t = true) argv ->
                              expand_flags argv = argv).
  { intros argv Hs. unfold expand_flags. rewrite expand_fold.
    unfold NormalizerSpec.normalize. cbn [app].
    induction Hs as [|t argv Ht _ IH]; [reflexivity|].
    cbn [flat_map]. apply normalize_settled in Ht. now rewrite Ht, IH. }
  split; [|split; [exact Hall|]].
  - intros t. unfold expand_flags. rewrite expand_fold.
    unfold NormalizerSpec.normalize. cbn [app flat_map].
    rewrite app_nil_r. apply normalize_settled.
  - intros argv Hd. apply Hall. eapply Forall_impl; [exact Hd|].
    intros t. apply settled_dashless.
Qed.

(** X12. The normaliser works token by token: the normal form of a
    concatenation is the concatenation of the normal forms.  A token
    that is a lone ["-"] contributes nothing: it is dropped from the
    input. *)
Theorem expand_flags_app (argv1 argv2 : list string) :
  expand_flags (argv1 ++ argv2) = expand_flags argv1 ++ expand_flags argv2
  /\ expand_flags (argv1 ++ "-" :: argv2) = expand_flags argv1 ++ expand_flags argv2.
Proof.
  unfold expand_flags. rewrite !expand_fold. unfold NormalizerSpec.normalize.
  cbn [app]. rewrite !flat_map_app. split; reflexivity.
Qed.

End NormalizerMore.

(** ** Building parsers *)

Section Building.

Lemma add_handler_fold (hld : list (Handler + CliParser)) : forall hs,
  fold_left (fun hs' (h : Handler + CliParser) =>
               match h with
               | inl h => hs' ++ [h]
               | inr p => hs' ++ handlers p
               end) hld hs
  = hs ++ flat_map item_handlers hld.
Proof.
  induction hld as [|item hld IH]; intros hs; cbn [fold_left flat_map].
  - now rewrite app_nil_r.
  - rewrite IH. destruct item; cbn [item_handlers]; now rewrite <- app_assoc.
Qed.

Lemma BuiltHandlers_app hs1 hs2 :
  BuiltHandlers hs1 -> BuiltHandlers hs2 -> BuiltHandlers (hs1 ++ hs2).
Proof.
  induction 1 as [|h hs1 Hh _ IH]; intros H2; simpl; [exact H2|].
  constructor; [exact Hh | now apply IH].
Qed.

Lemma BuiltHandlers_items (hld : list (Handler + CliParser)) :
  Forall (fun item => BuiltHandlers (item_handlers item)) hld ->
  BuiltHandlers (flat_map item_handlers hld).
Proof.
  induction 1 as [|item hld Hitem _ IH]; [constructor|].
  cbn [flat_map]. now apply BuiltHandlers_app.
Qed.

(** X13. [add_handler] appends, in order, each handler given and the
    handlers of each parser given, after the handlers already there,
    and keeps the prelude and the epilogue; [optparser] starts from no
    handlers; [include(other)] is [add_handler] of the one parser
    [other]; and a parser put together from built handlers and from
    parsers of built handlers is a parser of built handlers. *)
Theorem add_handler_flattens (hld : list (Handler + CliParser)) (this other : CliParser) :
  handlers (add_handler hld this) = handlers this ++ flat_map item_handlers hld
  /\ _prelude (add_handler hld this) = _prelude this
  /\ _epilogue (add_handler hld this) = _epilogue this
  /\ handlers (optparser hld) = flat_map item_handlers hld
  /\ include other this = add_handler [inr other] this
  /\ (BuiltHandlers (handlers this) ->
      Forall (fun item => BuiltHandlers (item_handlers item)) hld ->
      BuiltHandlers (handlers (add_handler hld this))).
Proof.
  assert (Hflat : forall that, handlers (add_handler hld that)
                               = handlers that ++ flat_map item_handlers hld).
  { intros that. unfold add_handler. cbn [handlers clone]. apply add_handler_fold. }
  split; [apply Hflat|]. split; [reflexivity|]. split; [reflexivity|].
  split; [apply (Hflat new_CliParser)|]. split; [reflexivity|].
  intros Hthis Hitems. rewrite Hflat.
  apply BuiltHandlers_app; [exact Hthis | now apply BuiltHandlers_items].
Qed.











End Building.

(** ** Priority among the handlers *)

Section Priority.

(** X15. The declaration order is a priority order.  At a position
    where the handlers declared before [h] decline, what [h] answers
    decides the pass: its claim is the claim of the pass, and its
    failure ends the whole scan at once, whatever the handlers declared
    after it would have claimed. *)
Theorem handler_priority (pre post : list Handler) (h : Handler)
  (args : list string) (pos : nat) (m : gmap nat (list group)) :
  (forall h', h' ∈ pre -> scan h' args pos (acc_of m h') = Some NoClaim) ->
  (forall g, scan h args pos (acc_of m h) = Some (Claim g) ->
             pass (pre ++ h :: post) args pos m = Some (PassClaim h g))
  /\ (forall e, scan h args pos (acc_of m h) = Some (ScanErr e) ->
                pass (pre ++ h :: post) args pos m = Some (PassErr e)
                /\ forall fuel, pos < length args ->
                     scanargs (S fuel) (pre ++ h :: post) args pos m
                     = Some (Aborted e)).
Proof.
  intros Hpre.
  assert (Hpass : pass (pre ++ h :: post) args pos m = pass (h :: post) args pos m).
  { rewrite pass_app. now rewrite (pass_none pre args pos m Hpre). }
  split.
  - intros g Hg. rewrite Hpass. cbn [pass]. now rewrite Hg.
  - intros e He.
    assert (Herr : pass (pre ++ h :: post) args pos m = Some (PassErr e))
      by (rewrite Hpass; cbn [pass]; now rewrite He).
    split; [exact Herr|]. intros fuel Hlt. now apply scanargs_aborts.
Qed.

Lemma handler_priority_witness :
  (forall h', h' ∈ [flag 1 ["-v"] "v"] ->
              scan h' ["x"] 0 (acc_of ∅ h') = Some NoClaim)
  /\ pass ([flag 1 ["-v"] "v"] ++ expect 2 "lit" "l" :: [arg 3 "a"]) ["x"] 0 ∅
     = Some (PassErr (expected "lit")).
Proof.
  assert (Hpre : forall h', h' ∈ [flag 1 ["-v"] "v"] ->
                            scan h' ["x"] 0 (acc_of ∅ h') = Some NoClaim).
  { intros h' Hin. apply list_elem_of_singleton in Hin. rewrite Hin. reflexivity. }
  split; [exact Hpre|].
  destruct (handler_priority [flag 1 ["-v"] "v"] [arg 3 "a"] (expect 2 "lit" "l")
              ["x"] 0 ∅ Hpre) as [_ Herr].
  exact (proj1 (Herr (expected "lit") eq_refl)).
Defined.

End Priority.

(** ** The combinators composed *)

Section Combinators.

Lemma repeat_loop_array this strs : forall res v,
  H.repeat_loop this strs res = Val v -> exists items, v = VArr items.
Proof.
  induction strs as [|s strs IH]; intros res v Hrun; simpl in Hrun.
  - injection Hrun as <-. now eexists.
  - destruct (value this [s]) as [sres| |]; try discriminate.
    destruct (nullish sres); eapply IH; eauto.
Qed.

(** X16. [required()] has no effect on a handler whose value is never
    absent: a flag (its value is a boolean), an expect (the literal), a
    repeated handler (a sequence, possibly empty, so that
    [repeat().required()] does not ask for an occurrence) and a handler
    with a default that is not [null] or [undefined].  In the other
    order, [required().default(v)], the default never applies. *)
Theorem required_without_effect (o1 o2 : nat) (strs : list group) :
  (forall acts key,
      value (H.required o2 (flag o1 acts key)) strs = value (flag o1 acts key) strs)
  /\ (forall literal key,
        value (H.required o2 (expect o1 literal key)) strs
        = value (expect o1 literal key) strs)
  /\ (forall this,
        value (H.required o2 (H.repeat o1 this)) strs
        = value (H.repeat o1 this) strs)
  /\ (forall v this, nullish v = false ->
        value (H.required o2 (H.default o1 v this)) strs
        = value (H.default o1 v this) strs)
  /\ (forall v this,
        value (H.default o2 v (H.required o1 this)) strs
        = value (H.required o1 this) strs).
Proof.
  repeat split.
  - intros acts key. cbn. now destruct (length strs) as [|[|n]].
  - intros this. cbn.
    destruct (H.repeat_loop this strs []) as [v| |] eqn:Hrun; try reflexivity.
    destruct (repeat_loop_array _ _ _ _ Hrun) as [items ->]. reflexivity.
  - intros v this Hv. cbn. destruct (value this strs) as [r| |]; try reflexivity.
    destruct (nullish r) eqn:Hr; cbn; [now rewrite Hv | now rewrite Hr].
  - intros v this. cbn. destruct (value this strs) as [r| |]; try reflexivity.
    destruct (nullish r) eqn:Hr; cbn; [reflexivity | now rewrite Hr].
Qed.

Lemma parse_nothing (p : CliParser) (args : list string) :
  expand_flags args = [] ->
  parse p args =
  match doValues p (init_mapres (handlers p)) with
  | MatchErr e => Some (Thrown ("match error: " +:+ e))
  | Throw e => Some (Thrown e)
  | Val r => Some (Parsed r)
  end.
Proof.
  intros Hnone. unfold parse, doScan. rewrite Hnone.
  rewrite scanargs_at_end by (simpl; lia). reflexivity.
Qed.

(** X17. A required [param] fails at extraction, naming its activators
    joined by [","], when it claimed nothing and also when it claimed
    its activator without a value; with a value it yields the value.  A
    required [arg] that claimed nothing fails naming its key.  On an
    input that normalises to no token at all, the parse of a parser
    with one required [param] throws that failure. *)
Theorem required_missing (o1 o2 : nat) (acts : list string) (key : string) :
  let missing := quoted (Js.join "," (effective acts key)) +:+ " must be specified" in
  value (H.required o2 (param o1 acts key)) [] = MatchErr missing
  /\ (forall t o, value (H.required o2 (param o1 acts key)) [Group [t] o]
                  = MatchErr missing)
  /\ (forall t v o, value (H.required o2 (param o1 acts key)) [Group [t; v] o]
                    = Val (VStr v))
  /\ value (H.required o2 (arg o1 key)) []
     = MatchErr (quoted key +:+ " must be specified")
  /\ (forall args, expand_flags args = [] ->
        parse (optparser [inl (H.required o2 (param o1 acts key))]) args
        = Some (Thrown ("match error: " +:+ missing))).
Proof.
  cbv zeta. repeat split.
  intros args Hnone. rewrite (parse_nothing _ _ Hnone).
  rewrite doValues_single.
  change (init_mapres (handlers (optparser [inl (H.required o2 (param o1 acts key))])))
    with (<[hid (H.required o2 (param o1 acts key)) := []]>
            (∅ : gmap nat (list group))).
  rewrite acc_of_insert. reflexivity.
Qed.

(** X18. Two [map]s in a row are one [map] with the composed function,
    in which an absent intermediate result ends the chain; [map] keeps
    an absent value absent (and turns [null] into [undefined]); and
    none of [required], [map] and [default] turns a failure into a
    value. *)
Theorem map_composes (o1 o2 o3 : nat) (f g : jsval -> VRes) (this : Handler)
  (strs : list group) :
  value (H.map o2 g (H.map o1 f this)) strs
  = value (H.map o3 (fun v => match f v with
                              | Val w => if nullish w then Val VUndef else g w
                              | r => r
                              end) this) strs
  /\ (forall v, value this strs = Val v -> nullish v = true ->
                value (H.map o1 f this) strs = Val VUndef)
  /\ (forall e v, value this strs = MatchErr e ->
                  value (H.required o1 this) strs = MatchErr e
                  /\ value (H.map o1 f this) strs = MatchErr e
                  /\ value (H.default o1 v this) strs = MatchErr e).
Proof.
  split; [|split].
  - cbn. destruct (value this strs) as [r| |]; try reflexivity.
    destruct (nullish r); [reflexivity|]. now destruct (f r).
  - intros v Hv Hnull. cbn. now rewrite Hv, Hnull.
  - intros e v He. cbn. now rewrite He.
Qed.

(** X19. On an input that normalises to no token (the empty input, or
    one made of lone ["-"] tokens), no scan closure is asked: every
    accumulator is empty and the outcome of [parse] is the extraction
    over empty accumulators, whatever the handlers are. *)
Theorem parse_of_nothing (p : CliParser) (args : list string) :
  expand_flags args = [] ->
  (forall h, h ∈ handlers p -> acc_of (init_mapres (handlers p)) h = [])
  /\ doScan p (expand_flags args) 0 = Some (ScanOk 0 (init_mapres (handlers p)))
  /\ parse p args =
     match doValues p (init_mapres (handlers p)) with
     | MatchErr e => Some (Thrown ("match error: " +:+ e))
     | Throw e => Some (Thrown e)
     | Val r => Some (Parsed r)
     end.
Proof.
  intros Hnone. split; [intros h Hin; now apply acc_of_init|].
  split; [|now apply parse_nothing].
  unfold doScan. rewrite Hnone. now rewrite scanargs_at_end by (simpl; lia).
Qed.

Lemma parse_of_nothing_witness :
  expand_flags ["-"; "-"] = []
  /\ parse Ex.flag_then_args ["-"; "-"]
     = Some (Parsed (VObj (<["v" := VBool false]>
                             (<["a" := VUndef]> (<["b" := VUndef]> ∅))))).
Proof.
  assert (Hnone : expand_flags ["-"; "-"] = []) by reflexivity.
  split; [exact Hnone|].
  destruct (parse_of_nothing Ex.flag_then_args ["-"; "-"] Hnone) as (_ & _ & Hparse).
  rewrite Hparse. vm_compute. reflexivity.
Defined.

End Combinators.

(** ** Single-occurrence guards, and a parser as the one alternative *)

Section Guards.

Lemma pass_claim_inv hs args pos m h g :
  pass hs args pos m = Some (PassClaim h g) ->
  h ∈ hs /\ scan h args pos (acc_of m h) = Some (Claim g).
Proof.
  induction hs as [|h0 hs IH]; intros Hpass; simpl in Hpass; [discriminate|].
  destruct (scan h0 args pos (acc_of m h0)) as [[g0| |e]|] eqn:Hscan;
    try discriminate.
  - injection Hpass as <- <-. split; [apply list_elem_of_here | exact Hscan].
  - destruct (IH Hpass) as [Hin Hg]. split; [now apply list_elem_of_further | exact Hg].
Qed.

Lemma scanargs_guarded hs args h :
  (forall pos g acc, scan h args pos (g :: acc) = Some NoClaim) ->
  (forall h', h' ∈ hs -> hid h' = hid h -> h' = h) ->
  forall fuel pos m p' m',
    length (acc_of m h) <= 1 ->
    scanargs fuel hs args pos m = Some (Ended p' m') ->
    length (acc_of m' h) <= 1.
Proof.
  intros Hguard Hone. induction fuel as [|fuel IH]; intros pos m p' m' Hlen;
    rewrite scanargs_eq; destruct (pos <? length args); try discriminate;
    try (intros [= <- <-]; exact Hlen).
  destruct (pass hs args pos m) as [[h' g|e|]|] eqn:Hpass; try discriminate;
    [|intros [= <- <-]; exact Hlen].
  apply IH. destruct (pass_claim_inv _ _ _ _ _ _ Hpass) as [Hin Hg].
  destruct (decide (hid h' = hid h)) as [Heq|Hne].
  - rewrite (Hone h' Hin Heq) in *. rewrite acc_of_insert.
    destruct (acc_of m h) as [|g0 acc]; [simpl; lia|].
    rewrite Hguard in Hg. discriminate.
  - unfold acc_of. now rewrite lookup_insert_ne.
Qed.

(** X20. The guard [acc.length > 0] of [arg] and [expect] works in every
    parser: when the handler object stands alone under its identity, a
    successful scan leaves at most one group in its accumulator,
    whatever the other handlers are and wherever the scan starts. *)
Theorem guarded_claims_once (p : CliParser) (h : Handler) (args : list string)
  (init pos : nat) (m : gmap nat (list group)) :
  (exists oid key, h = arg oid key)
  \/ (exists oid literal key, h = expect oid literal key) ->
  h ∈ handlers p ->
  (forall h', h' ∈ handlers p -> hid h' = hid h -> h' = h) ->
  doScan p args init = Some (ScanOk pos m) ->
  length (acc_of m h) <= 1.
Proof.
  intros Hkind Hin Hone Hscan. unfold doScan in Hscan.
  destruct (scanargs _ _ _ _ _) as [[pos' m'|e]|] eqn:Hrun; try discriminate.
  destruct ((pos' =? init) && (pos' <? length args)); [discriminate|].
  injection Hscan as <- <-.
  refine (scanargs_guarded (handlers p) args h _ Hone _ _ _ _ _ _ Hrun).
  - destruct Hkind as [(oid & key & ->)|(oid & literal & key & ->)]; reflexivity.
  - rewrite acc_of_init by exact Hin. simpl. lia.
Qed.

Lemma guarded_claims_once_witness :
  ((exists oid key, arg 1 "a" = arg oid key)
   \/ (exists oid literal key, arg 1 "a" = expect oid literal key))
  /\ arg 1 "a" ∈ handlers Ex.flag_then_args
  /\ (forall h', h' ∈ handlers Ex.flag_then_args -> hid h' = hid (arg 1 "a") ->
                 h' = arg 1 "a")
  /\ exists m, doScan Ex.flag_then_args ["x"; "-v"; "y"] 0 = Some (ScanOk 3 m)
               /\ length (acc_of m (arg 1 "a")) <= 1.
Proof.
  assert (Hkind : (exists oid key, arg 1 "a" = arg oid key)
                  \/ (exists oid literal key, arg 1 "a" = expect oid literal key))
    by (left; now exists 1, "a").
  assert (Hin : arg 1 "a" ∈ handlers Ex.flag_then_args)
    by apply list_elem_of_further, list_elem_of_here.
  assert (Hone : forall h', h' ∈ handlers Ex.flag_then_args ->
                            hid h' = hid (arg 1 "a") -> h' = arg 1 "a").
  { intros h' Hin' Hid. cbn in Hin'.
    repeat (apply elem_of_cons in Hin' as [->|Hin']; [try discriminate; reflexivity|]).
    inversion Hin'. }
  destruct (doScan Ex.flag_then_args ["x"; "-v"; "y"] 0) as [[pos m|e]|] eqn:Hscan;
    [|vm_compute in Hscan; discriminate|vm_compute in Hscan; discriminate].
  assert (Hpos : pos = 3) by (vm_compute in Hscan; congruence). subst pos.
  split; [exact Hkind | split; [exact Hin | split; [exact Hone|]]].
  exists m. split; [reflexivity|].
  exact (guarded_claims_once Ex.flag_then_args (arg 1 "a") ["x"; "-v"; "y"] 0 3 m
           Hkind Hin Hone Hscan).
Defined.

(** X21. A parser [q] used as the only alternative of a [oneof] whose
    key is not ["__proto__"] behaves as [q] does, as long as [q] deals
    with the whole of a non-empty input: when [parse] of [q] throws,
    the wrapping parser throws the same error, and when it returns a
    result, the wrapping parser returns that result under the key of
    the [oneof]. *)
Theorem oneof_wraps (oid wm : nat) (q : CliParser) (key : string)
  (args : list string) (res : ParseRes) :
  key <> "__proto__" ->
  expand_flags args <> [] ->
  parse q args = Some res ->
  (forall a, res <> Unrecognized a) ->
  parse (optparser [inl (oneof oid wm [q] key)]) args
  = Some (match res with
          | Parsed r => Parsed (VObj (<[key := r]> ∅))
          | other => other
          end).
Proof.
  intros Hkey Hne Hq Hres. unfold parse in *.
  destruct (expand_flags args) as [|t rest]; [congruence|]. clear Hne.
  set (tokens := t :: rest) in *. set (h := oneof oid wm [q] key).
  assert (Hlen : length tokens = S (length rest)) by reflexivity.
  unfold doScan at 1.
  change (handlers (optparser [inl h])) with [h].
  change (init_mapres [h]) with (<[hid h := []]> (∅ : gmap nat (list group))).
  rewrite Nat.sub_0_r, Hlen.
  destruct (doScan q tokens 0) as [[pos m|e]|] eqn:Hscan; [| |discriminate].
  - destruct (Nat.eqb_spec pos (length tokens)) as [Hpos|Hpos]; cbn [negb] in Hq;
      [|injection Hq as <-; now elim (Hres (tokens !! pos))].
    subst pos. set (g := Group (Js.slice tokens 0 (length tokens)) (Some (wm, 0, m))).
    rewrite (scanargs_claims _ _ _ _ _ h g);
      [|lia|rewrite pass_single; cbn [scan h oneof oneof_scan]; now rewrite Hscan].
    assert (Hg : length (toks g) = S (length rest))
      by (cbn [toks g]; rewrite slice_length; lia).
    rewrite Hg, scanargs_at_end by lia.
    cbn [Nat.add Nat.eqb andb]. rewrite Nat.eqb_refl. cbn [negb].
    rewrite doValues_single, !acc_of_insert.
    cbn [app value h oneof length Nat.ltb Nat.leb]. unfold wm_get.
    cbn [origin g]. rewrite Nat.eqb_refl. cbn [lookup list_lookup].
    destruct (doValues q m); injection Hq as <-;
      rewrite <- ?(set_property_ne key _ _ Hkey); reflexivity.
  - injection Hq as <-.
    rewrite (scanargs_aborts _ _ _ _ _ e);
      [reflexivity|lia
       |rewrite pass_single; cbn [scan h oneof oneof_scan]; now rewrite Hscan].
Qed.

Lemma oneof_wraps_witness :
  "k" <> "__proto__"
  /\ expand_flags ["-v"] <> []
  /\ parse Ex.verbose ["-v"] = Some (Parsed (VObj (<["v" := VBool true]> ∅)))
  /\ (forall a, Parsed (VObj (<["v" := VBool true]> ∅)) <> Unrecognized a)
  /\ parse (optparser [inl (oneof 5 0 [Ex.verbose] "k")]) ["-v"]
     = Some (Parsed (VObj (<["k" := VObj (<["v" := VBool true]> ∅)]> ∅))).
Proof.
  assert (H0 : "k" <> "__proto__") by discriminate.
  assert (H1 : expand_flags ["-v"] <> []) by discriminate.
  assert (H2 : parse Ex.verbose ["-v"] = Some (Parsed (VObj (<["v" := VBool true]> ∅))))
    by (vm_compute; reflexivity).
  assert (H3 : forall a, Parsed (VObj (<["v" := VBool true]> ∅)) <> Unrecognized a)
    by discriminate.
  split; [exact H0 | split; [exact H1 | split; [exact H2 | split; [exact H3|]]]].
  exact (oneof_wraps 5 0 Ex.verbose "k" ["-v"] _ H0 H1 H2 H3).
Defined.

End Guards.
